(** * A shallow embedding of the baumdb LSM storage engine

    The development follows the Rust sources module by module:
    - [MemTable]      : src/memtable.rs (a BTreeMap<String, MemValue>)
    - [Codec]         : src/serialization.rs, src/deserialization.rs and
                        the data-file reader of src/memtable.rs
    - [Bloom]         : src/bloom_filter.rs
    - [Sst]           : the per-bundle read path of src/db.rs
    - [Db]            : BaumDb of src/db.rs
    - [Registry]      : src/file_handling/file_bundle.rs
    - [Compactor]     : src/file_handling/compaction.rs and flushing.rs *)

From Stdlib Require Import List String Ascii NArith Arith Bool Lia.
From Stdlib Require Import Strings.Byte.
Import ListNotations.

(* ------------------------------------------------------------------ *)
(** ** MemTable (src/memtable.rs) *)

Module MemTable.

(** [enum MemValue { Put(String), Delete }] *)
Inductive MemValue : Type :=
| Put (v : string)
| Delete.

Definition MemValue_eqb (a b : MemValue) : bool :=
  match a, b with
  | Put x, Put y => String.eqb x y
  | Delete, Delete => true
  | _, _ => false
  end.

(** [BTreeMap<String, MemValue>]: an association list kept in increasing
    key order, keys compared byte-wise ([String.compare] compares the
    byte values of the characters lexicographically, as [Ord for String]). *)
Definition MemTableBase := list (string * MemValue).

(** [BTreeMap::insert]: overwrite the slot of an existing key, otherwise
    insert at its ordered position. *)
Fixpoint insert (k : string) (v : MemValue) (m : MemTableBase) : MemTableBase :=
  match m with
  | [] => [(k, v)]
  | (k', v') :: r =>
      match String.compare k k' with
      | Lt => (k, v) :: m
      | Eq => (k, v) :: r
      | Gt => (k', v') :: insert k v r
      end
  end.

(** [BTreeMap::remove]: the previous slot (if any) and the new map. *)
Fixpoint remove (k : string) (m : MemTableBase) : option MemValue * MemTableBase :=
  match m with
  | [] => (None, [])
  | (k', v') :: r =>
      match String.compare k k' with
      | Lt => (None, m)
      | Eq => (Some v', r)
      | Gt => let (o, r') := remove k r in (o, (k', v') :: r')
      end
  end.

(** [BTreeMap::get]. *)
Fixpoint lookup (k : string) (m : MemTableBase) : option MemValue :=
  match m with
  | [] => None
  | (k', v') :: r =>
      match String.compare k k' with
      | Lt => None
      | Eq => Some v'
      | Gt => lookup k r
      end
  end.

(** [MemTable::len]: the number of entries. *)
Definition len (m : MemTableBase) : nat := List.length m.

(** [memtable_get_inner]: a tombstone reads as [None]. *)
Definition memtable_get_inner (m : MemTableBase) (k : string) : option string :=
  match lookup k m with
  | Some (Put s) => Some s
  | Some Delete => None
  | None => None
  end.

(** [MemTableWrite::put]. *)
Definition put (k v : string) (m : MemTableBase) : MemTableBase :=
  insert k (Put v) m.

(** [MemTableWrite::delete]:
    [if self.0.remove(key).is_none() { self.0.insert(key, MemValue::Delete) }] *)
Definition delete (k : string) (m : MemTableBase) : MemTableBase :=
  match remove k m with
  | (None, m') => insert k Delete m'
  | (Some _, m') => m'
  end.

(** Keys strictly increasing, pairwise: the invariant of a BTreeMap. *)
Fixpoint all_greater (k : string) (m : MemTableBase) : bool :=
  match m with
  | [] => true
  | (k', _) :: r =>
      match String.compare k k' with Lt => all_greater k r | _ => false end
  end.

Fixpoint keys_sorted (m : MemTableBase) : bool :=
  match m with
  | [] => true
  | (k, _) :: r => all_greater k r && keys_sorted r
  end.

End MemTable.

(* ------------------------------------------------------------------ *)
(** ** Codec (src/serialization.rs, src/deserialization.rs) *)

Module Codec.
Import MemTable.

(** A byte holding [n mod 256]. *)
Definition byte_of_N (n : N) : byte :=
  match Byte.of_N (n mod 256) with Some b => b | None => x00 end.

(** Big-endian [w]-byte encoding of [n mod 256^w]. *)
Fixpoint be_bytes (w : nat) (n : N) : list byte :=
  match w with
  | O => []
  | S w' => be_bytes w' (n / 256) ++ [byte_of_N n]
  end.

(** [(n as u64).to_be_bytes()] (and [usize::to_be_bytes] on a 64-bit
    target): the length is reduced modulo 2^64. *)
Definition u64_to_be_bytes (n : nat) : list byte := be_bytes 8 (N.of_nat n).

(** The big-endian value of a byte string. *)
Definition be_val (bs : list byte) : N :=
  fold_left (fun acc b => acc * 256 + Byte.to_N b)%N bs 0%N.

(** [str::as_bytes]. *)
Definition as_bytes (s : string) : list byte := list_byte_of_string s.

(** The bytes one key-value record writes into the block encoder:
    [u64 key_len . key . u8 kind . [u64 value_len . value]]. *)
Definition encode_key_value (e : string * MemValue) : list byte :=
  let (key, value) := e in
  u64_to_be_bytes (String.length key) ++ as_bytes key ++
  match value with
  | Delete => [x00]
  | Put value_str =>
      [x01] ++ u64_to_be_bytes (String.length value_str) ++ as_bytes value_str
  end.

(** [SerializedTableData] without its Bloom filter (the filter built
    alongside is the subject of module [Bloom]). *)
Record SerializedTableData := mkTableData {
  main_data : list byte;
  offsets : list byte
}.

(** [SerializedFoldState]: the gzip encoder is represented by the bytes
    it has taken since it was created. *)
Record SerializedFoldState := mkFoldState {
  table_data : SerializedTableData;
  encoder : list byte;
  encoded_bytes : nat;
  offset_counter : nat
}.

Definition fold_state_new : SerializedFoldState :=
  mkFoldState (mkTableData [] []) [] 0 0.

(** The block size threshold of the encoder. *)
Definition BLOCK_THRESHOLD : nat := 4096.

Section Serialize.

(** [GzEncoder::finish]: the compressed image of the bytes written into
    an encoder. *)
Variable compress : list byte -> list byte.

(** [GzEncoder::write]: the count it returns, the number of leading bytes
    of [buf] it takes, given the bytes [enc] it has taken since it was
    created. [Write::write] may take fewer bytes than it is offered:
    flate2's encoder returns as soon as its internal output buffer is
    full, which a large incompressible [buf] brings about. *)
Variable gz_write : list byte -> list byte -> nat.

(** [state.encoded_bytes += state.encoder.write(buf)?]: the encoder takes
    the first [gz_write enc buf] bytes of [buf], and the count is added;
    the rest of [buf] is dropped. *)
Definition encoder_write (enc : list byte) (eb : nat) (buf : list byte)
    : list byte * nat :=
  let n := gz_write enc buf in (enc ++ firstn n buf, eb + n).

(** One step of [self.into_iter().enumerate().try_fold(..)] in
    [Serialize for MemTable]. *)
Definition serialize_step (n_elements idx : nat) (e : string * MemValue)
    (state : SerializedFoldState) : SerializedFoldState :=
  let (key, value) := e in
  let key_len_bytes := u64_to_be_bytes (String.length key) in
  let key_bytes := as_bytes key in
  let td := table_data state in
  let offsets1 :=
    if encoded_bytes state =? 0
    then offsets td ++ key_len_bytes ++ key_bytes
    else offsets td in
  let '(enc1, eb1) := encoder_write (encoder state) (encoded_bytes state) key_len_bytes in
  let '(enc2, eb2) := encoder_write enc1 eb1 key_bytes in
  let '(enc3, eb3) :=
    match value with
    | Delete => encoder_write enc2 eb2 [x00]
    | Put value_str =>
        let '(enc4, eb4) := encoder_write enc2 eb2 [x01] in
        let '(enc5, eb5) :=
          encoder_write enc4 eb4 (u64_to_be_bytes (String.length value_str)) in
        encoder_write enc5 eb5 (as_bytes value_str)
    end in
  if (BLOCK_THRESHOLD <=? eb3) || (idx =? n_elements - 1) then
    let encoded_data := compress enc3 in
    let encoded_len := List.length encoded_data in
    mkFoldState
      (mkTableData
         (main_data td ++ u64_to_be_bytes encoded_len ++ encoded_data)
         (offsets1 ++ u64_to_be_bytes (offset_counter state)))
      [] 0 (offset_counter state + encoded_len)
  else
    mkFoldState (mkTableData (main_data td) offsets1) enc3 eb3
      (offset_counter state).

Fixpoint serialize_loop (n_elements idx : nat) (es : MemTableBase)
    (state : SerializedFoldState) : SerializedFoldState :=
  match es with
  | [] => state
  | e :: r => serialize_loop n_elements (S idx) r
                (serialize_step n_elements idx e state)
  end.

(** [Serialize::serialize] for [MemTable]. *)
Definition serialize_writes (m : MemTableBase) : SerializedTableData :=
  table_data (serialize_loop (len m) 0 m fold_state_new).

End Serialize.

(** A [write] that takes its whole argument, as [GzEncoder::write] does
    while its output buffer has room: on records of a few KiB, or on
    data that compresses well. *)
Definition whole_writes (enc buf : list byte) : nat := List.length buf.

(** [Serialize::serialize] when every [write] takes its whole argument. *)
Definition serialize (compress : list byte -> list byte) (m : MemTableBase)
    : SerializedTableData :=
  serialize_writes compress whole_writes m.

(** The grouping of a table's entries into blocks that [serialize]
    performs: a block is closed once the bytes written into its encoder
    reach the threshold, or at the last entry. *)
Fixpoint split_loop (n_elements idx : nat) (es : MemTableBase)
    (cur : MemTableBase) (eb : nat) : list MemTableBase :=
  match es with
  | [] => []
  | e :: r =>
      let eb' := eb + List.length (encode_key_value e) in
      if (BLOCK_THRESHOLD <=? eb') || (idx =? n_elements - 1)
      then (cur ++ [e]) :: split_loop n_elements (S idx) r [] 0
      else split_loop n_elements (S idx) r (cur ++ [e]) eb'
  end.

Definition split_blocks (m : MemTableBase) : list MemTableBase :=
  split_loop (len m) 0 m [] 0.

(** The bytes of one block: its records, one after the other. *)
Definition encode_block (b : MemTableBase) : list byte :=
  List.concat (map encode_key_value b).

(** [u64 compressed_block_len . compressed_block_bytes]. *)
Definition frame (c : list byte) : list byte :=
  u64_to_be_bytes (List.length c) ++ c.

(** The data file of a sequence of blocks: their frames, one after the
    other. *)
Definition frames (compress : list byte -> list byte) (bs : list MemTableBase)
    : list byte :=
  List.concat (map (fun b => frame (compress (encode_block b))) bs).

(** ** Decoding *)

(** The result of a read: [Ok], an [Err] passed on by [?] or ended a
    [while let Ok(..)] loop, or a panic. *)
Inductive outcome (A : Type) : Type :=
| Ok (a : A)
| Err
| Panic.

Arguments Ok {A} a.
Arguments Err {A}.
Arguments Panic {A}.

(** [isize::MAX] on a 64-bit target. *)
Definition isize_max : N := (2 ^ 63 - 1)%N.

(** [vec![0; n]] for a [u8] buffer panics ("capacity overflow") when [n]
    exceeds [isize::MAX]; an allocation within that bound is taken to
    succeed. *)
Definition vec_fits (n : N) : bool := (n <=? isize_max)%N.

(** [ReadBytesExt::read_u64::<BigEndian>] on a cursor. *)
Definition read_u64 (c : list byte) : option (N * list byte) :=
  if 8 <=? List.length c then Some (be_val (firstn 8 c), skipn 8 c) else None.

(** [ReadBytesExt::read_u8]. *)
Definition read_u8 (c : list byte) : option (byte * list byte) :=
  match c with
  | b :: r => Some (b, r)
  | [] => None
  end.

(** [Read::read_exact] into a buffer of [n] bytes. *)
Definition read_exact (n : N) (c : list byte) : option (list byte * list byte) :=
  if (n <=? N.of_nat (List.length c))%N
  then Some (firstn (N.to_nat n) c, skipn (N.to_nat n) c) else None.

Definition in_range (b : byte) (lo hi : nat) : bool :=
  (lo <=? Byte.to_nat b) && (Byte.to_nat b <=? hi).

(** UTF-8 well-formedness as checked by [String::from_utf8]
    (shortest forms only, no surrogates, at most U+10FFFF). *)
Fixpoint valid_utf8 (bs : list byte) : bool :=
  match bs with
  | [] => true
  | b :: r =>
      let n := Byte.to_nat b in
      if n <? 128 then valid_utf8 r
      else if (194 <=? n) && (n <=? 223) then
        match r with
        | c1 :: r1 => in_range c1 128 191 && valid_utf8 r1
        | _ => false
        end
      else if (224 <=? n) && (n <=? 239) then
        match r with
        | c1 :: c2 :: r2 =>
            in_range c1 (if n =? 224 then 160 else 128)
                        (if n =? 237 then 159 else 191)
            && in_range c2 128 191 && valid_utf8 r2
        | _ => false
        end
      else if (240 <=? n) && (n <=? 244) then
        match r with
        | c1 :: c2 :: c3 :: r3 =>
            in_range c1 (if n =? 240 then 144 else 128)
                        (if n =? 244 then 143 else 191)
            && in_range c2 128 191 && in_range c3 128 191 && valid_utf8 r3
        | _ => false
        end
      else false
  end.

(** [String::from_utf8]. *)
Definition from_utf8 (bs : list byte) : option string :=
  if valid_utf8 bs then Some (string_of_list_byte bs) else None.

(** [read_key_value]. *)
Definition read_key_value (c : list byte) : outcome ((string * MemValue) * list byte) :=
  match read_u64 c with
  | None => Err
  | Some (key_len, c1) =>
  if negb (vec_fits key_len) then Panic else
  match read_exact key_len c1 with
  | None => Err
  | Some (kb, c2) =>
  match from_utf8 kb with
  | None => Err
  | Some key =>
  match read_u8 c2 with
  | None => Err
  | Some (value_type, c3) =>
      match value_type with
      | x00 => Ok ((key, Delete), c3)
      | x01 =>
          match read_u64 c3 with
          | None => Err
          | Some (value_len, c4) =>
          if negb (vec_fits value_len) then Panic else
          match read_exact value_len c4 with
          | None => Err
          | Some (vb, c5) =>
          match from_utf8 vb with
          | None => Err
          | Some value => Ok ((key, Put value), c5)
          end end end
      | _ => Err
      end
  end end end end.

(** [read_key_offset]: one index entry [u64 key_len . key . u64 offset]. *)
Definition read_key_offset (c : list byte) : outcome ((string * N) * list byte) :=
  match read_u64 c with
  | None => Err
  | Some (key_len, c1) =>
  if negb (vec_fits key_len) then Panic else
  match read_exact key_len c1 with
  | None => Err
  | Some (kb, c2) =>
  match from_utf8 kb with
  | None => Err
  | Some key =>
  match read_u64 c2 with
  | None => Err
  | Some (offset, c3) => Ok ((key, offset), c3)
  end end end end.

(** [while let Ok(KeyValue { key, value }) = read_key_value(..) {
    raw_table.insert(key, value) }]: an [Err] ends the loop, a panic
    goes through. Every round consumes at least one byte, so [fuel]
    above the length of [c] runs the loop to its end. *)
Fixpoint read_records (fuel : nat) (c : list byte) (tbl : MemTableBase)
    : outcome MemTableBase :=
  match fuel with
  | O => Ok tbl
  | S f =>
      match read_key_value c with
      | Ok ((k, v), c') => read_records f c' (insert k v tbl)
      | Err => Ok tbl
      | Panic => Panic
      end
  end.

Section Decode.

(** [GzDecoder::read_to_end]: [None] is a decoding error. *)
Variable decompress : list byte -> option (list byte).

(** The [while memtable_bytes.has_remaining()] loop of
    [DataHandling::try_from_file] for [MemTable]; every round consumes at
    least eight bytes. *)
Fixpoint read_blocks (fuel : nat) (c : list byte) (tbl : MemTableBase)
    : outcome MemTableBase :=
  match fuel with
  | O => Ok tbl
  | S f =>
      match c with
      | [] => Ok tbl
      | _ :: _ =>
          match read_u64 c with
          | None => Err
          | Some (encoded_block_length, c1) =>
          if negb (vec_fits encoded_block_length) then Panic else
          match read_exact encoded_block_length c1 with
          | None => Err
          | Some (raw_block, c2) =>
          match decompress raw_block with
          | None => Err
          | Some blk =>
              match read_records (S (List.length blk)) blk tbl with
              | Ok tbl' => read_blocks f c2 tbl'
              | Err => Err
              | Panic => Panic
              end
          end end end
      end
  end.

(** [MemTable::try_from_file] applied to the bytes of a data file. *)
Definition try_from_file (bytes : list byte) : outcome MemTableBase :=
  read_blocks (S (List.length bytes)) bytes [].

End Decode.

(** A length of at most [isize::MAX] bytes, and UTF-8 bytes (every
    Rust [String] satisfies both). *)
Definition string_ok (s : string) : bool :=
  (N.of_nat (String.length s) <=? isize_max)%N && valid_utf8 (as_bytes s).

Definition entry_ok (e : string * MemValue) : bool :=
  string_ok (fst e) &&
  match snd e with Put v => string_ok v | Delete => true end.

End Codec.

(* ------------------------------------------------------------------ *)
(** ** Bloom filter (src/bloom_filter.rs) *)

Module Bloom.

Section Bloom.

(** [std::collections::hash_map::DefaultHasher]: a hasher state, fed
    with [write] and [write_u8], read out with [finish]. *)
Variable HState : Type.
Variable hasher_new : HState.
Variable hasher_write : HState -> list byte -> HState.
Variable hasher_write_u8 : HState -> byte -> HState.
Variable hasher_finish : HState -> N.

Record BloomHasher := mkBloomHasher {
  size : nat;
  n_hashes : nat   (* a u8 *)
}.

Record DefaultBloomFilter := mkBloomFilter {
  filter : list byte;
  hasher : BloomHasher
}.

(** [DefaultBloomFilter::new]. *)
Definition new (size n_hashes : nat) : DefaultBloomFilter :=
  mkBloomFilter (repeat x00 size) (mkBloomHasher size n_hashes).

(** [for idx in 0..self.n_hashes { hasher.write_u8(idx);
    indices.push(hasher.finish() as usize % self.size) }];
    [None] is the panic of a remainder by zero. *)
Fixpoint hash_rounds (sz idx count : nat) (st : HState) (acc : list nat)
    : option (list nat) :=
  match count with
  | O => Some acc
  | S c =>
      let st' := hasher_write_u8 st (Codec.byte_of_N (N.of_nat idx)) in
      if Nat.eqb sz 0 then None
      else hash_rounds sz (S idx) c st'
             (acc ++ [N.to_nat (hasher_finish st' mod N.of_nat sz)])
  end.

(** [BloomHash::hash_key]: the vector starts with [n_hashes] zeros, the
    hashed indices are pushed after them. *)
Definition hash_key (h : BloomHasher) (key : string) : option (list nat) :=
  let indices := repeat 0 (n_hashes h) in
  let st := hasher_write hasher_new (Codec.as_bytes key) in
  hash_rounds (size h) 0 (n_hashes h) st indices.

(** [self.filter[idx] = 1]; [None] is the out-of-bounds panic. *)
Fixpoint set_index (l : list byte) (idx : nat) : option (list byte) :=
  match l, idx with
  | [], _ => None
  | _ :: r, O => Some (x01 :: r)
  | b :: r, S i => option_map (cons b) (set_index r i)
  end.

Fixpoint set_all (l : list byte) (idxs : list nat) : option (list byte) :=
  match idxs with
  | [] => Some l
  | i :: r =>
      match set_index l i with
      | None => None
      | Some l' => set_all l' r
      end
  end.

(** [BloomFilter::add_key]. *)
Definition add_key (f : DefaultBloomFilter) (key : string)
    : option DefaultBloomFilter :=
  match hash_key (hasher f) key with
  | None => None
  | Some idxs =>
      match set_all (filter f) idxs with
      | None => None
      | Some l => Some (mkBloomFilter l (hasher f))
      end
  end.

(** [.into_iter().all(|idx| self.filter[idx] == 1)]: stops at the first
    index that is not set; [None] is the out-of-bounds panic. *)
Fixpoint all_set (l : list byte) (idxs : list nat) : option bool :=
  match idxs with
  | [] => Some true
  | i :: r =>
      match nth_error l i with
      | None => None
      | Some b => if Byte.eqb b x01 then all_set l r else Some false
      end
  end.

(** [BloomFilter::may_contain_key]. *)
Definition may_contain_key (f : DefaultBloomFilter) (key : string) : option bool :=
  match hash_key (hasher f) key with
  | None => None
  | Some idxs => all_set (filter f) idxs
  end.

(** A sequence of [add_key] calls. *)
Fixpoint add_keys (f : DefaultBloomFilter) (keys : list string)
    : option DefaultBloomFilter :=
  match keys with
  | [] => Some f
  | k :: r =>
      match add_key f k with
      | None => None
      | Some f' => add_keys f' r
      end
  end.

(** The shape every filter has, from [new] with a positive size and from
    [TryFrom<Vec<u8>>] (which rejects fewer than two bytes). *)
Definition bloom_wf (f : DefaultBloomFilter) : Prop :=
  List.length (filter f) = size (hasher f) /\ 0 < size (hasher f).

(** [impl Default for DefaultBloomFilter]. *)
Definition default : DefaultBloomFilter := new 65536 5.

(** [From<DefaultBloomFilter> for Vec<u8>]: the filter bytes with
    [n_hashes] (a u8) pushed at the end. *)
Definition into_bytes (f : DefaultBloomFilter) : list byte :=
  filter f ++ [Codec.byte_of_N (N.of_nat (n_hashes (hasher f)))].

(** [TryFrom<Vec<u8>> for DefaultBloomFilter]: fewer than two bytes are
    an error; otherwise the last byte is removed as [n_hashes] and the
    remaining length is the size. *)
Definition try_from (bytes : list byte) : option DefaultBloomFilter :=
  if List.length bytes <? 2 then None
  else
    let nh := Byte.to_nat (last bytes x00) in
    let rest := removelast bytes in
    Some (mkBloomFilter rest (mkBloomHasher (List.length rest) nh)).

(** The Bloom filter of [SerializedTableData] as the fold of
    [Serialize for MemTable] builds it: [default], then
    [bloom_filter.add_key(&key)] for every entry in key order. *)
Definition serialize_bloom (m : MemTable.MemTableBase) : option DefaultBloomFilter :=
  add_keys default (map fst m).

End Bloom.

End Bloom.

(* ------------------------------------------------------------------ *)
(** ** The per-bundle read path of BaumDb::get (src/db.rs) *)

Module Sst.
Import MemTable Codec.

(** The first entry [index_iter.next_if(|(idx, _)| idx.as_str() < key)
    .or_else(|| index_iter.next())] yields, with the iterator left
    behind (whose next entry bounds the block that is read). *)
Definition select_entry {A : Type} (index : list (string * A)) (key : string)
    : option ((string * A) * list (string * A)) :=
  let '(first, rest) :=
    match index with
    | [] => (None, [])
    | (idx, a) :: r =>
        if String.ltb idx key then (Some (idx, a), r) else (None, index)
    end in
  match first with
  | Some e => Some (e, rest)
  | None =>
      match rest with
      | [] => None
      | e :: r => Some (e, r)
      end
  end.

(** [while let Ok((indexed_key, offset)) = read_key_offset(&mut cursor) {
    index_vec.push((indexed_key, offset)) }] over the bytes of an index
    file: an [Err] ends the loop, a panic goes through. Every round
    consumes at least sixteen bytes, so [fuel] above the length of [c]
    runs the loop to its end. *)
Fixpoint read_index_loop (fuel : nat) (c : list byte) (acc : list (string * N))
    : outcome (list (string * N)) :=
  match fuel with
  | O => Ok acc
  | S f =>
      match read_key_offset c with
      | Ok (e, c') => read_index_loop f c' (acc ++ [e])
      | Err => Ok acc
      | Panic => Panic
      end
  end.

Definition read_index (bytes : list byte) : outcome (list (string * N)) :=
  read_index_loop (S (List.length bytes)) bytes [].

(** The blocks of a bundle at the level of tables: for every block, its
    first key paired with the records of the block. *)
Definition first_key (b : MemTableBase) : string :=
  match b with
  | (k, _) :: _ => k
  | [] => EmptyString
  end.

Definition sst_index (m : MemTableBase) : list (string * MemTableBase) :=
  map (fun b => (first_key b, b)) (split_blocks m).

(** The linear scan of the decompressed block: [Some r] when a record
    with the key is found ([r] is the answer of [get]), [None] when the
    block holds no record for the key. *)
Fixpoint scan_block (key : string) (records : MemTableBase)
    : option (option string) :=
  match records with
  | [] => None
  | (existing_key, existing_value) :: r =>
      if String.eqb existing_key key then
        match existing_value with
        | Put s => Some (Some s)
        | Delete => Some None
        end
      else scan_block key r
  end.

(** One iteration of the loop over the bundles, for the bundle written
    from table [m], at the level of tables: the block [select_entry]
    picks is scanned for the key. The byte-level read (the block fetched
    from the data file at the recorded offset and decompressed) is not
    modelled here. *)
Definition bundle_get (m : MemTableBase) (key : string) : option (option string) :=
  match select_entry (sst_index m) key with
  | None => None
  | Some ((_, blk), _) => scan_block key blk
  end.

(** The loop over the bundles, newest first. *)
Fixpoint disk_get (bundles : list MemTableBase) (key : string) : option string :=
  match bundles with
  | [] => None
  | b :: r =>
      match bundle_get b key with
      | Some res => res
      | None => disk_get r key
      end
  end.

End Sst.

(* ------------------------------------------------------------------ *)
(** ** The engine BaumDb (src/db.rs) *)

Module Db.
Import MemTable.

(** [BaumDb]: the two memtables, the size limit, and the bundles on
    disk, newest first, each given by the table it was written from.
    The flush task is taken to have written a frozen table before the
    next operation. *)
Record BaumDb := mkBaumDb {
  main_table : MemTableBase;
  secondary_table : MemTableBase;
  max_memtable_size : nat;
  sst_tables : list MemTableBase
}.

(** [BaumDb::new]. *)
Definition new (max_memtable_size : nat) : BaumDb :=
  mkBaumDb [] [] max_memtable_size [].

(** [BaumDb::get] with given memtables and bundles. *)
Definition get_from (main secondary : MemTableBase) (bundles : list MemTableBase)
    (key : string) : option string :=
  match memtable_get_inner main key with
  | Some value => Some value
  | None =>
      match memtable_get_inner secondary key with
      | Some value => Some value
      | None => Sst.disk_get bundles key
      end
  end.

Definition get (db : BaumDb) (key : string) : option string :=
  get_from (main_table db) (secondary_table db) (sst_tables db) key.

(** [flush_memtable]: the main table becomes the secondary table and is
    sent to the flush task. *)
Definition flush_memtable (db : BaumDb) : BaumDb :=
  mkBaumDb [] (main_table db) (max_memtable_size db)
    (main_table db :: sst_tables db).

(** [maybe_flush_memtable]. *)
Definition maybe_flush_memtable (db : BaumDb) : BaumDb :=
  if max_memtable_size db <=? len (main_table db)
  then flush_memtable db else db.

Definition with_main (db : BaumDb) (m : MemTableBase) : BaumDb :=
  mkBaumDb m (secondary_table db) (max_memtable_size db) (sst_tables db).

(** [DB::put] and [DB::delete]. *)
Definition db_put (db : BaumDb) (key value : string) : BaumDb :=
  maybe_flush_memtable (with_main db (MemTable.put key value (main_table db))).

Definition db_delete (db : BaumDb) (key : string) : BaumDb :=
  maybe_flush_memtable (with_main db (MemTable.delete key (main_table db))).

(** The writes of a single writer. *)
Inductive Op : Type :=
| OpPut (key value : string)
| OpDelete (key : string).

Definition apply_op (db : BaumDb) (o : Op) : BaumDb :=
  match o with
  | OpPut k v => db_put db k v
  | OpDelete k => db_delete db k
  end.

Definition run (db : BaumDb) (ops : list Op) : BaumDb := fold_left apply_op ops db.

(** What the writes say about [key]: the value of the last [put] of it,
    or [None] when a [delete] of it came last or it was never written. *)
Definition last_write (ops : list Op) (key : string) : option string :=
  fold_left (fun acc o =>
    match o with
    | OpPut k v => if String.eqb k key then Some v else acc
    | OpDelete k => if String.eqb k key then None else acc
    end) ops None.

End Db.

(* ------------------------------------------------------------------ *)
(** ** The bundle registry (src/file_handling/file_bundle.rs) *)

Module Registry.
Import MemTable.

Inductive Level : Type := L0 | L1 | L2.

(** [Level::next_level]. *)
Definition next_level (l : Level) : option Level :=
  match l with
  | L0 => Some L1
  | L1 => Some L2
  | L2 => None
  end.

(** [FileBundle]: its id, its level and the table its data file was
    written from (the paths of its three files are not modelled). *)
Record FileBundle := mkFileBundle {
  id : nat;
  level : Level;
  table : MemTableBase
}.

(** [FileBundlesLevelled]; [fresh] supplies the fresh ids
    [FileBundleId::new()] draws as random UUIDs. *)
Record FileBundlesLevelled := mkLevelled {
  l0 : list FileBundle;
  l1 : list FileBundle;
  l2 : list FileBundle;
  fresh : nat
}.

Definition empty : FileBundlesLevelled := mkLevelled [] [] [] 0.

(** [FileBundlesLevelled::iter]: L0, then L1, then L2, each front to back. *)
Definition iter (r : FileBundlesLevelled) : list FileBundle := l0 r ++ l1 r ++ l2 r.

Inductive ShouldCompact : Type := Yes | No.

(** [new_file_bundle]: an uncommitted bundle, not yet in any level. *)
Definition new_file_bundle (lvl : Level) (t : MemTableBase)
    (r : FileBundlesLevelled) : FileBundle * FileBundlesLevelled :=
  (mkFileBundle (fresh r) lvl t, mkLevelled (l0 r) (l1 r) (l2 r) (S (fresh r))).

(** [commit_file_bundle]: push to the front of the bundle's level. *)
Definition commit_file_bundle (b : FileBundle) (r : FileBundlesLevelled)
    : FileBundlesLevelled * ShouldCompact :=
  match level b with
  | L0 =>
      let l := b :: l0 r in
      (mkLevelled l (l1 r) (l2 r) (fresh r),
       if 4 <=? List.length l then Yes else No)
  | L1 =>
      let l := b :: l1 r in
      (mkLevelled (l0 r) l (l2 r) (fresh r),
       if 8 <=? List.length l then Yes else No)
  | L2 =>
      (mkLevelled (l0 r) (l1 r) (b :: l2 r) (fresh r), No)
  end.

(** [bundles_to_remove.contains(..)] on the id set. *)
Definition contains (ids : list nat) (x : nat) : bool := existsb (Nat.eqb x) ids.

(** [VecDeque::remove(i)] for an index in range. *)
Fixpoint remove_nth {A : Type} (i : nat) (l : list A) : list A :=
  match l, i with
  | [], _ => []
  | _ :: r, O => r
  | x :: r, S j => x :: remove_nth j r
  end.

(** [let mut i = 0; while i < l.len() { if contains(l[i].id) {
    files_to_delete.push(l.remove(i)) } else { i += 1 } }]: the level
    after the loop and the bundles pushed. Each round either shortens the
    list or advances [i], so [fuel] of the list's length ends the loop. *)
Fixpoint remove_loop (ids : list nat) (fuel i : nat) (l acc : list FileBundle)
    : list FileBundle * list FileBundle :=
  match fuel with
  | O => (l, acc)
  | S f =>
      match nth_error l i with
      | None => (l, acc)
      | Some b =>
          if contains ids (id b)
          then remove_loop ids f i (remove_nth i l) (acc ++ [b])
          else remove_loop ids f (S i) l acc
      end
  end.

Definition remove_level (ids : list nat) (l acc : list FileBundle)
    : list FileBundle * list FileBundle :=
  remove_loop ids (List.length l) 0 l acc.

(** [remove_bundles]: the registry after the three loops and the number
    of bundles whose files are deleted. *)
Definition remove_bundles (ids : list nat) (r : FileBundlesLevelled)
    : FileBundlesLevelled * nat :=
  let (l0', acc0) := remove_level ids (l0 r) [] in
  let (l1', acc1) := remove_level ids (l1 r) acc0 in
  let (l2', acc2) := remove_level ids (l2 r) acc1 in
  (mkLevelled l0' l1' l2' (fresh r), List.length acc2).

(** [flush] of src/file_handling/flushing.rs with its file writes
    succeeding: an uncommitted bundle is created, then committed. *)
Definition flush (t : MemTableBase) (lvl : Level) (r : FileBundlesLevelled)
    : FileBundlesLevelled * ShouldCompact :=
  let (b, r1) := new_file_bundle lvl t r in
  commit_file_bundle b r1.

(** Every bundle id is below the supply of fresh ids. *)
Definition wf (r : FileBundlesLevelled) : bool :=
  forallb (fun b => id b <? fresh r) (iter r).

End Registry.

(* ------------------------------------------------------------------ *)
(** ** The compactor (src/file_handling/compaction.rs) *)

Module Compactor.
Import MemTable Registry.

(** The bundle list of a level, as cloned under the read lock. *)
Definition level_bundles (lvl : Level) (r : FileBundlesLevelled) : list FileBundle :=
  match lvl with
  | L0 => l0 r
  | L1 => l1 r
  | L2 => l2 r
  end.

(** [for (key, value) in newer_table { Put => insert, Delete => remove }]. *)
Definition merge_newer (merger newer : MemTableBase) : MemTableBase :=
  fold_left (fun acc e =>
    match snd e with
    | Put _ => insert (fst e) (snd e) acc
    | Delete => snd (remove (fst e) acc)
    end) newer merger.

(** The registry mutations of a run, each with the registry after it. *)
Inductive Event : Type :=
| EvCommit (b : FileBundle)
| EvRemove (ids : list nat).

(** The [loop] of [Compaction::compact], from [level_to_compact], on a
    schedule where no flush or other compaction changes the registry
    while it runs. Reading a data file back ([MemTable::try_from_file])
    gives the table it was written from, which holds when every
    [GzEncoder::write] of the flush took its whole argument (lemma
    [serialize_whole_writes_roundtrip]), and I/O succeeds. The loop runs
    at most once per level that has a next level, so three rounds of
    [fuel] exhaust it. *)
Fixpoint compact_loop (fuel : nat) (level_to_compact : Level)
    (r : FileBundlesLevelled) : FileBundlesLevelled * list (Event * FileBundlesLevelled) :=
  match fuel with
  | O => (r, [])
  | S f =>
      match next_level level_to_compact with
      | None => (r, [])
      | Some nl =>
          match rev (level_bundles level_to_compact r) with
          | [] => (r, [])
          | oldest :: newer =>
              let merger :=
                fold_left (fun acc b => merge_newer acc (table b)) newer (table oldest) in
              let compacted_bundle_ids := map id (oldest :: newer) in
              match merger with
              | [] => (r, [])
              | _ :: _ =>
                  let (b, r1) := new_file_bundle nl merger r in
                  let (r2, should_compact) := commit_file_bundle b r1 in
                  let (r3, _) := remove_bundles compacted_bundle_ids r2 in
                  let tr := [(EvCommit b, r2); (EvRemove compacted_bundle_ids, r3)] in
                  match should_compact with
                  | Yes =>
                      let (r4, tr') := compact_loop f nl r3 in (r4, tr ++ tr')
                  | No => (r3, tr)
                  end
              end
          end
      end
  end.

(** [Compaction::compact]. *)
Definition compact (r : FileBundlesLevelled)
    : FileBundlesLevelled * list (Event * FileBundlesLevelled) :=
  compact_loop 3 L0 r.

(** What holds at a commit of a run followed by the removal of its
    inputs: the committed bundle [b] is visible after the commit ([s0])
    and after the removal ([s]), it is not among the removed ids, and
    every removed id names a bundle visible after the commit. *)
Definition commit_then_remove (b : FileBundle) (s0 : FileBundlesLevelled)
    (ids : list nat) (s : FileBundlesLevelled) : Prop :=
  In b (iter s0) /\ In b (iter s) /\ ~ In (id b) ids
  /\ (forall x, In x ids -> exists bb, In bb (iter s0) /\ id bb = x).

(** A trace made of commit/removal pairs. *)
Inductive paired : list (Event * FileBundlesLevelled) -> Prop :=
| paired_nil : paired []
| paired_cons : forall b s0 ids s rest,
    commit_then_remove b s0 ids s -> paired rest ->
    paired ((EvCommit b, s0) :: (EvRemove ids, s) :: rest).

End Compactor.

(* ------------------------------------------------------------------ *)
(** ** Concrete inputs and the reading of the spec *)

Module Inputs.
Import MemTable Codec Registry.
Local Open Scope string_scope.

(** A value long enough to close a block on its own. *)
Definition big_value : string := string_of_list_ascii (repeat "x"%char 4096).

(** A table serialized into two blocks: [a] alone, then [m]. *)
Definition two_block_table : MemTableBase :=
  [("a", Put big_value); ("m", Put "1")].

(** Bundles flushed to L0, one per table, oldest first. *)
Definition flush_all (ts : list MemTableBase) (r : FileBundlesLevelled)
    : FileBundlesLevelled :=
  fold_left (fun r t => fst (Registry.flush t L0 r)) ts r.

(** Four flushes, the last of them a lone tombstone for [k]. *)
Definition four_versions : FileBundlesLevelled :=
  flush_all [[("k", Put "v1")]; [("k", Put "v2")]; [("k", Put "v3")];
             [("k", Delete)]] empty.

(** [k] reaches L1 through a first compaction; later three L0 bundles
    and a tombstone for [k] are flushed. *)
Definition after_first_compaction : FileBundlesLevelled :=
  fst (Compactor.compact
         (flush_all [[("k", Put "v")]; [("a", Put "1")]; [("b", Put "2")];
                     [("c", Put "3")]] empty)).

Definition before_second_compaction : FileBundlesLevelled :=
  flush_all [[("a", Put "1")]; [("b", Put "2")]; [("c", Put "3")];
             [("k", Delete)]] after_first_compaction.

(** The block choice the spec describes: the last index entry whose key
    is at most the searched key, else the first entry. *)
Fixpoint last_le {A : Type} (index : list (string * A)) (key : string)
    (best : option (string * A)) : option (string * A) :=
  match index with
  | [] => best
  | (i, a) :: r =>
      if String.leb i key then last_le r key (Some (i, a)) else last_le r key best
  end.

Definition spec_select_entry {A : Type} (index : list (string * A)) (key : string)
    : option (string * A) :=
  match last_le index key None with
  | Some e => Some e
  | None => hd_error index
  end.

(** A value of 32769 bytes, one more than a [write] below takes. *)
Definition long_value : string := string_of_list_ascii (repeat "x"%char 32769).

(** A [GzEncoder::write] that takes at most 32 KiB per call, the size of
    the output buffer flate2's encoder fills before it returns. *)
Definition capped_write (enc buf : list byte) : nat := Nat.min (List.length buf) 32768.

(** A small polynomial hasher, standing in for [DefaultHasher] in
    concrete runs of the Bloom filter. *)
Definition poly_write (st : N) (bs : list byte) : N :=
  fold_left (fun a b => (a * 31 + Byte.to_N b) mod 2 ^ 64)%N bs st.

Definition poly_write_u8 (st : N) (b : byte) : N := ((st * 31 + Byte.to_N b) mod 2 ^ 64)%N.

Definition poly_finish (st : N) : N := st.

End Inputs.

(* ================================================================== *)
(** * Properties *)

Module Proofs.
Import MemTable Codec Registry Compactor Inputs.
Local Open Scope string_scope.
Local Open Scope list_scope.

(** ** Byte encodings *)

Lemma be_bytes_length : forall w n, List.length (be_bytes w n) = w.
Proof.
  induction w as [|w IH]; intros n; simpl; [reflexivity|].
  rewrite length_app, IH; simpl; lia.
Qed.

Lemma u64_to_be_bytes_length : forall n, List.length (u64_to_be_bytes n) = 8.
Proof. intros n; apply be_bytes_length. Qed.

Lemma to_N_byte_of_N : forall n, Byte.to_N (byte_of_N n) = (n mod 256)%N.
Proof.
  intros n; unfold byte_of_N.
  destruct (Byte.of_N (n mod 256)) eqn:E.
  - now apply Byte.to_of_N in E.
  - apply Byte.of_N_None_iff in E. pose proof (N.mod_lt n 256). lia.
Qed.

Lemma be_val_snoc : forall l b,
  be_val (l ++ [b]) = (be_val l * 256 + Byte.to_N b)%N.
Proof. intros; unfold be_val; now rewrite fold_left_app. Qed.

Lemma be_val_be_bytes : forall w n,
  be_val (be_bytes w n) = (n mod 256 ^ N.of_nat w)%N.
Proof.
  induction w as [|w IH]; intros n.
  - simpl. now rewrite N.mod_1_r.
  - simpl be_bytes. rewrite be_val_snoc, IH, to_N_byte_of_N.
    rewrite Nat2N.inj_succ, N.pow_succ_r by lia.
    rewrite N.Div0.mod_mul_r. lia.
Qed.

Lemma firstn_prefix : forall (x rest : list byte),
  firstn (List.length x) (x ++ rest) = x.
Proof.
  intros; rewrite firstn_app, Nat.sub_diag, firstn_all; simpl; apply app_nil_r.
Qed.

Lemma skipn_prefix : forall (x rest : list byte),
  skipn (List.length x) (x ++ rest) = rest.
Proof.
  intros; rewrite skipn_app, Nat.sub_diag, skipn_all; reflexivity.
Qed.

Lemma read_u64_bytes : forall bs rest,
  List.length bs = 8 -> read_u64 (bs ++ rest) = Some (be_val bs, rest).
Proof.
  intros bs rest H; unfold read_u64.
  rewrite length_app, H.
  replace (Nat.leb 8 (8 + List.length rest)) with true
    by (symmetry; apply Nat.leb_le; lia).
  rewrite <- H, firstn_prefix, skipn_prefix; reflexivity.
Qed.

Lemma read_u64_u64 : forall n rest,
  (N.of_nat n < 2 ^ 64)%N ->
  read_u64 (u64_to_be_bytes n ++ rest) = Some (N.of_nat n, rest).
Proof.
  intros n rest Hn.
  rewrite read_u64_bytes by apply u64_to_be_bytes_length.
  unfold u64_to_be_bytes; rewrite be_val_be_bytes, N.mod_small; [reflexivity|exact Hn].
Qed.

Lemma read_exact_prefix : forall (x rest : list byte),
  read_exact (N.of_nat (List.length x)) (x ++ rest) = Some (x, rest).
Proof.
  intros; unfold read_exact.
  rewrite length_app, Nat2N.id.
  replace (N.leb (N.of_nat (List.length x)) (N.of_nat (List.length x + List.length rest)))
    with true by (symmetry; apply N.leb_le; lia).
  now rewrite firstn_prefix, skipn_prefix.
Qed.

Lemma read_exact_short : forall n c,
  (N.of_nat (List.length c) < n)%N -> read_exact n c = None.
Proof.
  intros n c H; unfold read_exact.
  replace (N.leb n (N.of_nat (List.length c))) with false
    by (symmetry; apply N.leb_gt; exact H).
  reflexivity.
Qed.

Lemma as_bytes_length : forall s, List.length (as_bytes s) = String.length s.
Proof.
  intros s; unfold as_bytes, list_byte_of_string.
  rewrite length_map; induction s; simpl; congruence.
Qed.

Lemma from_utf8_as_bytes : forall s,
  valid_utf8 (as_bytes s) = true -> from_utf8 (as_bytes s) = Some s.
Proof.
  intros s H; unfold from_utf8; rewrite H.
  unfold as_bytes; now rewrite string_of_list_byte_of_string.
Qed.

Lemma isize_max_lt : (isize_max < 2 ^ 64)%N.
Proof. reflexivity. Qed.

(** The reads of a length-prefixed string: the prefix, the allocation of
    the buffer, the bytes and their UTF-8 check. *)
Lemma read_string : forall s rest,
  string_ok s = true ->
  read_u64 (u64_to_be_bytes (String.length s) ++ as_bytes s ++ rest)
    = Some (N.of_nat (String.length s), as_bytes s ++ rest)
  /\ vec_fits (N.of_nat (String.length s)) = true
  /\ read_exact (N.of_nat (String.length s)) (as_bytes s ++ rest) = Some (as_bytes s, rest)
  /\ from_utf8 (as_bytes s) = Some s.
Proof.
  intros s rest H; unfold string_ok in H.
  apply andb_prop in H as [H1 H2]. apply N.leb_le in H1.
  split; [apply read_u64_u64; pose proof isize_max_lt; lia|].
  split; [apply N.leb_le; exact H1|].
  split; [rewrite <- as_bytes_length; apply read_exact_prefix|].
  now apply from_utf8_as_bytes.
Qed.

(** One index entry [u64 key_len . key . u64 offset]. *)
Lemma read_key_offset_entry : forall k ob rest,
  string_ok k = true -> List.length ob = 8 ->
  read_key_offset (u64_to_be_bytes (String.length k) ++ as_bytes k ++ ob ++ rest)
  = Ok ((k, be_val ob), rest).
Proof.
  intros k ob rest Hk Hob.
  destruct (read_string k (ob ++ rest) Hk) as [R1 [R2 [R3 R4]]].
  unfold read_key_offset; rewrite R1, R2; cbn [negb]. rewrite R3, R4.
  rewrite read_u64_bytes by exact Hob; reflexivity.
Qed.

Lemma read_index_loop_S : forall f c acc,
  Sst.read_index_loop (S f) c acc =
  match read_key_offset c with
  | Ok (e, c') => Sst.read_index_loop f c' (acc ++ [e])
  | Err => Ok acc
  | Panic => Panic
  end.
Proof. reflexivity. Qed.

(** C1: for single-writer writes, [get] right after them returns the
    last [put] value unless a later [delete] came. It does not: with
    [max_memtable_size = 2] the writes [put(k,v1); put(j,x)] move [k]
    into the secondary table, and a following [delete(k)] (a tombstone
    in the main table, which [get] reads as [None] and looks past) or
    [put(k,v2); delete(k)] (which removes [k] from the main table
    without a tombstone) leaves [get(k) = Some v1]. *)
Theorem db_get_after_delete_sees_older_value :
  Db.get (Db.run (Db.new 2)
            [Db.OpPut "k" "v1"; Db.OpPut "j" "x"; Db.OpDelete "k"]) "k"
    = Some "v1"
  /\ Db.last_write [Db.OpPut "k" "v1"; Db.OpPut "j" "x"; Db.OpDelete "k"] "k"
       = None
  /\ Db.get (Db.run (Db.new 2)
               [Db.OpPut "k" "v1"; Db.OpPut "j" "x"; Db.OpPut "k" "v2";
                Db.OpDelete "k"]) "k" = Some "v1"
  /\ Db.last_write [Db.OpPut "k" "v1"; Db.OpPut "j" "x"; Db.OpPut "k" "v2";
                    Db.OpDelete "k"] "k" = None.
Proof. vm_compute. repeat split. Qed.

(** C3: [delete] leaves a tombstone for the key whatever its slot was.
    It does not: on a key present with a [Put] or a tombstone, [delete]
    removes the entry, so the key has no slot at all afterwards; only an
    absent key gets a tombstone. *)
Theorem memtable_delete_present_key_leaves_no_tombstone :
  MemTable.delete "k" [("k", Put "v")] = []
  /\ MemTable.delete "k" [("k", Delete)] = []
  /\ MemTable.lookup "k" (MemTable.delete "k" [("k", Put "v")]) = None
  /\ MemTable.lookup "k" (MemTable.delete "k" []) = Some Delete.
Proof. vm_compute. repeat split. Qed.

(** C5: the block read for [k] is the one of the last index entry whose
    key is at most [k] (the first entry when there is none). The code
    takes the first entry in every case: [next_if] yields it when its key
    is below [k], and [or_else(|| index_iter.next())] yields that same
    first entry otherwise. On the index [a; m] a lookup of [z] picks [a];
    on the index file the serializer writes for a two-block table
    ([a] with a 4096-byte value, then [m]), decoded by the loop over
    [read_key_offset], a lookup of [m] picks the entry of [a] (offset 0,
    the first block), whatever the compressor, while [m] is stored in the
    second block. *)
Theorem get_reads_block_of_first_index_entry :
  forall compress : list byte -> list byte,
  Sst.select_entry [("a", 0); ("m", 100)] "z" = Some (("a", 0), [("m", 100)])
  /\ spec_select_entry [("a", 0); ("m", 100)] "z" = Some ("m", 100)
  /\ (exists index,
        Sst.read_index (offsets (serialize compress two_block_table)) = Ok index
        /\ map fst index = ["a"; "m"]
        /\ option_map fst (Sst.select_entry index "m") = Some ("a", 0%N)
        /\ option_map fst (spec_select_entry index "m") = Some "m")
  /\ split_blocks two_block_table = [[("a", Put big_value)]; [("m", Put "1")]]
  /\ MemTable.lookup "m" two_block_table = Some (Put "1").
Proof.
  intros compress.
  split; [reflexivity|]. split; [reflexivity|].
  split; [|vm_compute; split; reflexivity].
  assert (Ho : offsets (serialize compress two_block_table)
               = u64_to_be_bytes 1 ++ as_bytes "a" ++ u64_to_be_bytes 0
                 ++ u64_to_be_bytes 1 ++ as_bytes "m"
                 ++ u64_to_be_bytes (List.length (compress (encode_block [("a", Put big_value)]))))
    by reflexivity.
  rewrite Ho; clear Ho.
  set (ob := u64_to_be_bytes (List.length (compress (encode_block [("a", Put big_value)])))).
  assert (Hl : List.length ob = 8) by apply u64_to_be_bytes_length.
  clearbody ob.
  exists [("a", be_val (u64_to_be_bytes 0)); ("m", be_val ob)].
  split; [|repeat split].
  unfold Sst.read_index.
  lazymatch goal with
  | |- Sst.read_index_loop (S ?n) _ _ = _ =>
      replace n with (S (S (24 + List.length ob)))
        by (rewrite !length_app, !u64_to_be_bytes_length; reflexivity)
  end.
  rewrite read_index_loop_S.
  rewrite (read_key_offset_entry "a" (u64_to_be_bytes 0))
    by (reflexivity || apply u64_to_be_bytes_length).
  cbv beta iota.
  replace (u64_to_be_bytes 1 ++ as_bytes "m" ++ ob)
    with (u64_to_be_bytes (String.length "m") ++ as_bytes "m" ++ ob ++ [])
    by (rewrite app_nil_r; reflexivity).
  rewrite read_index_loop_S, read_key_offset_entry by (reflexivity || exact Hl).
  cbv beta iota.
  rewrite read_index_loop_S; reflexivity.
Qed.

(** C8: when every entry of the merged level cancels out, the run removes
    the compacted bundles before it returns. It does not: the run returns
    at once and the four L0 bundles stay registered. *)
Theorem compaction_with_empty_merger_keeps_inputs :
  map (fun b => (id b, table b)) (l0 four_versions)
    = [(3, [("k", Delete)]); (2, [("k", Put "v3")]); (1, [("k", Put "v2")]);
       (0, [("k", Put "v1")])]
  /\ compact four_versions = (four_versions, []).
Proof. vm_compute. split; reflexivity. Qed.

(** C2: one compaction run does not change [get], and the merged output
    keeps a tombstone whose key an older level may still hold. It does
    not keep it: in the registry below, the newest L0 bundle holds a
    tombstone for [k] and the older L1 bundle holds [k: Put v]. The merge
    loop removes [k] from the merger on the tombstone, so the bundle the
    run commits to L1 has no record for [k]; the L0 inputs are removed,
    and the only record for [k] left in the registry is the older
    [Put v]. *)
Theorem compaction_drops_tombstone_and_resurrects_value :
  snd (Registry.flush [("k", Delete)] L0
         (flush_all [[("a", Put "1")]; [("b", Put "2")]; [("c", Put "3")]]
            after_first_compaction)) = Yes
  /\ map table (l0 before_second_compaction)
     = [[("k", Delete)]; [("c", Put "3")]; [("b", Put "2")]; [("a", Put "1")]]
  /\ map table (l1 before_second_compaction)
     = [[("a", Put "1"); ("b", Put "2"); ("c", Put "3"); ("k", Put "v")]]
  /\ l0 (fst (compact before_second_compaction)) = []
  /\ map table (l1 (fst (compact before_second_compaction)))
     = [[("a", Put "1"); ("b", Put "2"); ("c", Put "3")];
        [("a", Put "1"); ("b", Put "2"); ("c", Put "3"); ("k", Put "v")]]
  /\ l2 (fst (compact before_second_compaction)) = []
  /\ map (fun b => lookup "k" (table b)) (iter (fst (compact before_second_compaction)))
     = [None; Some (Put "v")].
Proof. vm_compute. repeat split. Qed.

(** C4: each index entry records the offset of its block's length prefix,
    the running offset advancing by the framed length. It does not:
    [offset_counter] advances by the compressed length alone, so on a
    two-block table the second entry records [|c1|] while the second
    frame starts at [8 + |c1|], whatever the compressor. *)
Theorem serialize_offset_omits_length_prefix :
  forall compress : list byte -> list byte,
  let c1 := compress (encode_block [("a", Put big_value)]) in
  let c2 := compress (encode_block [("m", Put "1")]) in
  serialize compress two_block_table =
    mkTableData (frame c1 ++ frame c2)
      (u64_to_be_bytes 1 ++ as_bytes "a" ++ u64_to_be_bytes 0
       ++ u64_to_be_bytes 1 ++ as_bytes "m" ++ u64_to_be_bytes (List.length c1))
  /\ List.length (frame c1) = 8 + List.length c1.
Proof.
  intros compress c1 c2; split.
  - reflexivity.
  - unfold frame; rewrite length_app, u64_to_be_bytes_length; reflexivity.
Qed.

(** ** Removing bundles *)

Lemma remove_nth_middle {A : Type} : forall (p r : list A) (b : A),
  remove_nth (List.length p) (p ++ b :: r) = p ++ r.
Proof. induction p as [|x p IH]; intros r b; simpl; [reflexivity | now rewrite IH]. Qed.

Lemma nth_error_middle {A : Type} : forall (p r : list A) (b : A),
  nth_error (p ++ b :: r) (List.length p) = Some b.
Proof. induction p as [|x p IH]; intros r b; simpl; [reflexivity | apply IH]. Qed.

(** The loop keeps the bundles before [i] and filters the rest. *)
Lemma remove_loop_filter : forall ids r p acc fuel,
  List.length r <= fuel ->
  remove_loop ids fuel (List.length p) (p ++ r) acc
  = (p ++ filter (fun b => negb (contains ids (id b))) r,
     acc ++ filter (fun b => contains ids (id b)) r).
Proof.
  intros ids r; induction r as [|b r IH]; intros p acc fuel Hf.
  - destruct fuel as [|f]; simpl.
    + now rewrite !app_nil_r.
    + rewrite app_nil_r, (proj2 (nth_error_None p (List.length p)) (Nat.le_refl _)).
      simpl; now rewrite !app_nil_r.
  - destruct fuel as [|f]; simpl in Hf; [lia|].
    simpl; rewrite nth_error_middle.
    destruct (contains ids (id b)) eqn:Hc; simpl.
    + rewrite remove_nth_middle, IH by lia.
      now rewrite <- app_assoc.
    + replace (S (List.length p)) with (List.length (p ++ [b]))
        by (rewrite length_app; simpl; lia).
      replace (p ++ b :: r) with ((p ++ [b]) ++ r) by (now rewrite <- app_assoc).
      rewrite IH by lia.
      now rewrite <- app_assoc.
Qed.

Lemma remove_level_filter : forall ids l acc,
  remove_level ids l acc
  = (filter (fun b => negb (contains ids (id b))) l,
     acc ++ filter (fun b => contains ids (id b)) l).
Proof.
  intros ids l acc; unfold remove_level.
  apply (remove_loop_filter ids l [] acc); lia.
Qed.

Lemma remove_bundles_levels : forall ids r,
  remove_bundles ids r =
    (mkLevelled (filter (fun b => negb (contains ids (id b))) (l0 r))
                (filter (fun b => negb (contains ids (id b))) (l1 r))
                (filter (fun b => negb (contains ids (id b))) (l2 r))
                (fresh r),
     List.length (filter (fun b => contains ids (id b)) (l0 r))
     + List.length (filter (fun b => contains ids (id b)) (l1 r))
     + List.length (filter (fun b => contains ids (id b)) (l2 r))).
Proof.
  intros ids r; unfold remove_bundles.
  rewrite !remove_level_filter; simpl.
  now rewrite !length_app.
Qed.

(** C10: [remove_bundles] removes from the three levels exactly the
    bundles whose id is in the set, keeps every other bundle in its
    level in the same relative order, and returns the number of bundles
    removed. *)
Theorem remove_bundles_spec : forall ids r,
  remove_bundles ids r =
    (mkLevelled (filter (fun b => negb (contains ids (id b))) (l0 r))
                (filter (fun b => negb (contains ids (id b))) (l1 r))
                (filter (fun b => negb (contains ids (id b))) (l2 r))
                (fresh r),
     List.length (filter (fun b => contains ids (id b)) (l0 r))
     + List.length (filter (fun b => contains ids (id b)) (l1 r))
     + List.length (filter (fun b => contains ids (id b)) (l2 r))).
Proof.
  intros ids r; unfold remove_bundles.
  rewrite !remove_level_filter; simpl.
  now rewrite !length_app.
Qed.

(** ** Compaction order *)

Lemma contains_In : forall ids x, contains ids x = true <-> In x ids.
Proof.
  intros ids x; unfold contains; rewrite existsb_exists; split.
  - intros [y [Hy Heq]]; apply Nat.eqb_eq in Heq; now subst.
  - intros H; exists x; split; [assumption | apply Nat.eqb_refl].
Qed.

Lemma wf_spec : forall r, wf r = true <-> (forall b, In b (iter r) -> id b < fresh r).
Proof.
  intros r; unfold wf; rewrite forallb_forall; split; intros H b Hb.
  - apply Nat.ltb_lt, H, Hb.
  - apply Nat.ltb_lt, H, Hb.
Qed.

Lemma level_bundles_iter : forall lvl r b, In b (level_bundles lvl r) -> In b (iter r).
Proof.
  intros [] r b Hb; unfold iter; simpl in Hb; rewrite !in_app_iff; tauto.
Qed.

Lemma commit_iter : forall b r x,
  In x (iter (fst (commit_file_bundle b r))) <-> x = b \/ In x (iter r).
Proof.
  intros b r x; unfold commit_file_bundle, iter.
  destruct (level b); simpl; rewrite ?in_app_iff; simpl; rewrite ?in_app_iff;
    firstorder congruence.
Qed.

Lemma commit_fresh : forall b r, fresh (fst (commit_file_bundle b r)) = fresh r.
Proof. intros b r; unfold commit_file_bundle; now destruct (level b). Qed.

Lemma remove_iter : forall ids r x,
  In x (iter (fst (remove_bundles ids r))) <-> In x (iter r) /\ ~ In (id x) ids.
Proof.
  intros ids r x; rewrite remove_bundles_levels; unfold iter; simpl.
  rewrite !in_app_iff, !filter_In, <- contains_In.
  destruct (contains ids (id x)); simpl; intuition congruence.
Qed.

Lemma remove_fresh : forall ids r, fresh (fst (remove_bundles ids r)) = fresh r.
Proof. intros ids r; now rewrite remove_bundles_levels. Qed.

Lemma compact_loop_paired : forall fuel lvl r,
  wf r = true ->
  paired (snd (compact_loop fuel lvl r)) /\ wf (fst (compact_loop fuel lvl r)) = true.
Proof.
  induction fuel as [|f IH]; intros lvl r Hwf; simpl; [split; [constructor | assumption]|].
  destruct (next_level lvl) as [nl|]; [|split; [constructor | assumption]].
  destruct (rev (level_bundles lvl r)) as [|oldest newer] eqn:Hrev;
    [split; [constructor | assumption]|].
  set (merger := fold_left _ newer (table oldest)).
  destruct merger as [|e es] eqn:Hm; [split; [constructor | assumption]|].
  set (b := mkFileBundle (fresh r) nl (e :: es)).
  set (r1 := mkLevelled (l0 r) (l1 r) (l2 r) (S (fresh r))).
  simpl.
  destruct (commit_file_bundle b r1) as [r2 sc] eqn:Hc.
  set (ids := id oldest :: map id newer).
  destruct (remove_bundles ids r2) as [r3 n] eqn:Hr.
  assert (Hin : forall bb, In bb (oldest :: newer) -> In bb (iter r)).
  { intros bb Hbb; rewrite <- Hrev in Hbb; apply in_rev in Hbb.
    eapply level_bundles_iter; eassumption. }
  assert (Hr2 : forall x, In x (iter r2) <-> x = b \/ In x (iter r)).
  { intros x; change r2 with (fst (r2, sc)); rewrite <- Hc, commit_iter; reflexivity. }
  assert (Hf2 : fresh r2 = S (fresh r)).
  { change r2 with (fst (r2, sc)); rewrite <- Hc, commit_fresh; reflexivity. }
  assert (Hr3 : forall x, In x (iter r3) <-> In x (iter r2) /\ ~ In (id x) ids).
  { intros x; change r3 with (fst (r3, n)); rewrite <- Hr, remove_iter; reflexivity. }
  assert (Hf3 : fresh r3 = S (fresh r)).
  { change r3 with (fst (r3, n)); rewrite <- Hr, remove_fresh; assumption. }
  assert (Hnot : ~ In (id b) ids).
  { intros Hx; unfold ids in Hx; change (id oldest :: map id newer)
      with (map id (oldest :: newer)) in Hx.
    apply in_map_iff in Hx as [bb [Hid Hbb]].
    apply Hin in Hbb; apply (proj1 (wf_spec r) Hwf) in Hbb.
    simpl in Hid; lia. }
  assert (Hpair : commit_then_remove b r2 ids r3).
  { repeat split.
    - apply Hr2; now left.
    - apply Hr3; split; [apply Hr2; now left | assumption].
    - assumption.
    - intros x Hx; unfold ids in Hx; change (id oldest :: map id newer)
        with (map id (oldest :: newer)) in Hx.
      apply in_map_iff in Hx as [bb [Hid Hbb]].
      exists bb; split; [apply Hr2; right; now apply Hin | assumption]. }
  assert (Hwf3 : wf r3 = true).
  { apply wf_spec; intros x Hx; apply Hr3 in Hx as [Hx _]; apply Hr2 in Hx.
    rewrite Hf3; destruct Hx as [-> | Hx]; [simpl; lia|].
    apply (proj1 (wf_spec r) Hwf) in Hx; lia. }
  destruct sc; simpl.
  - destruct (compact_loop f nl r3) as [r4 tr'] eqn:Hl; simpl.
    destruct (IH nl r3 Hwf3) as [Hp Hw]; rewrite Hl in Hp, Hw; simpl in Hp, Hw.
    split; [constructor; assumption | assumption].
  - split; [constructor; [assumption | constructor] | assumption].
Qed.

Lemma paired_nth : forall tr, paired tr ->
  forall i ids s, nth_error tr i = Some (EvRemove ids, s) ->
  exists j b s0, i = S j /\ nth_error tr j = Some (EvCommit b, s0)
                 /\ commit_then_remove b s0 ids s.
Proof.
  intros tr Hp; induction Hp as [|b s0 ids s rest Hq Hp IH]; intros i ids' s' Hi.
  - destruct i; discriminate.
  - destruct i as [|[|i]]; simpl in Hi.
    + discriminate.
    + injection Hi as -> ->; exists 0, b, s0; split; [reflexivity | split; [reflexivity | exact Hq]].
    + destruct (IH i ids' s' Hi) as [j [b' [s0' [-> [Hj Hq']]]]].
      exists (S (S j)), b', s0'; split; [reflexivity | split; [exact Hj | exact Hq']].
Qed.

(** C9: in a compaction run, every removal of compacted inputs comes
    right after the commit of the bundle merged from them; that bundle is
    visible when it is committed and stays visible through the removal,
    and the inputs are all still visible at the commit. So inputs and
    output are never both invisible. *)
Theorem compaction_commits_before_removing_inputs : forall r,
  wf r = true ->
  forall i ids s, nth_error (snd (compact r)) i = Some (EvRemove ids, s) ->
  exists j b s0, i = S j
    /\ nth_error (snd (compact r)) j = Some (EvCommit b, s0)
    /\ In b (iter s0) /\ In b (iter s) /\ ~ In (id b) ids
    /\ (forall x, In x ids -> exists bb, In bb (iter s0) /\ id bb = x).
Proof.
  intros r Hwf i ids s Hi.
  destruct (compact_loop_paired 3 L0 r Hwf) as [Hp _].
  exact (paired_nth _ Hp i ids s Hi).
Qed.

Lemma compaction_commits_before_removing_inputs_witness :
  wf before_second_compaction = true
  /\ nth_error (snd (compact before_second_compaction)) 1
       = Some (EvRemove [5; 6; 7; 8], fst (compact before_second_compaction))
  /\ exists j b s0, 1 = S j
       /\ nth_error (snd (compact before_second_compaction)) j = Some (EvCommit b, s0)
       /\ In b (iter s0) /\ In b (iter (fst (compact before_second_compaction)))
       /\ ~ In (id b) [5; 6; 7; 8]
       /\ (forall x, In x [5; 6; 7; 8] -> exists bb, In bb (iter s0) /\ id bb = x).
Proof.
  split; [vm_compute; reflexivity|].
  split; [vm_compute; reflexivity|].
  apply (compaction_commits_before_removing_inputs before_second_compaction).
  - vm_compute; reflexivity.
  - vm_compute; reflexivity.
Defined.

(** ** The Bloom filter *)

Section BloomProofs.

Variable HState : Type.
Variable hasher_new : HState.
Variable hasher_write : HState -> list byte -> HState.
Variable hasher_write_u8 : HState -> byte -> HState.
Variable hasher_finish : HState -> N.

Local Abbreviation hash_rounds :=
  (Bloom.hash_rounds HState hasher_write_u8 hasher_finish).
Local Abbreviation hash_key :=
  (Bloom.hash_key HState hasher_new hasher_write hasher_write_u8 hasher_finish).
Local Abbreviation add_key :=
  (Bloom.add_key HState hasher_new hasher_write hasher_write_u8 hasher_finish).
Local Abbreviation add_keys :=
  (Bloom.add_keys HState hasher_new hasher_write hasher_write_u8 hasher_finish).
Local Abbreviation may_contain_key :=
  (Bloom.may_contain_key HState hasher_new hasher_write hasher_write_u8 hasher_finish).

Lemma hash_rounds_in_range : forall sz count idx st acc,
  sz <> 0 ->
  exists xs, hash_rounds sz idx count st acc = Some (acc ++ xs)
             /\ Forall (fun x => x < sz) xs.
Proof.
  intros sz count; induction count as [|c IH]; intros idx st acc Hsz; simpl.
  - exists []; rewrite app_nil_r; split; [reflexivity | constructor].
  - apply Nat.eqb_neq in Hsz as Hb; rewrite Hb.
    set (x := N.to_nat (hasher_finish (hasher_write_u8 st (byte_of_N (N.of_nat idx)))
                          mod N.of_nat sz)).
    destruct (IH (S idx) (hasher_write_u8 st (byte_of_N (N.of_nat idx)))
                 (acc ++ [x]) Hsz) as [xs [Heq Hall]].
    exists (x :: xs); rewrite Heq, <- app_assoc; split; [reflexivity|].
    constructor; [|assumption].
    unfold x; apply Nat.nlt_ge; intros Hge.
    pose proof (N.mod_lt (hasher_finish (hasher_write_u8 st (byte_of_N (N.of_nat idx))))
                         (N.of_nat sz)) as Hlt.
    lia.
Qed.

Lemma hash_key_in_range : forall h key,
  0 < Bloom.size h ->
  exists idxs, hash_key h key = Some idxs /\ Forall (fun x => x < Bloom.size h) idxs.
Proof.
  intros h key Hpos; unfold Bloom.hash_key.
  destruct (hash_rounds_in_range (Bloom.size h) (Bloom.n_hashes h) 0
              (hasher_write hasher_new (as_bytes key)) (repeat 0 (Bloom.n_hashes h)))
    as [xs [Heq Hall]]; [lia|].
  exists (repeat 0 (Bloom.n_hashes h) ++ xs); split; [exact Heq|].
  apply Forall_app; split; [|assumption].
  apply Forall_forall; intros x Hx; apply repeat_spec in Hx; lia.
Qed.

Lemma set_index_spec : forall l i,
  i < List.length l ->
  exists l', Bloom.set_index l i = Some l' /\ List.length l' = List.length l
    /\ nth_error l' i = Some x01
    /\ (forall j, nth_error l j = Some x01 -> nth_error l' j = Some x01).
Proof.
  induction l as [|b l IH]; intros i Hi; simpl in Hi; [lia|].
  destruct i as [|i]; simpl.
  - exists (x01 :: l); repeat split.
    intros [|j] Hj; simpl in *; congruence.
  - destruct (IH i ltac:(lia)) as [l' [Heq [Hlen [Hset Hmono]]]].
    rewrite Heq; simpl; exists (b :: l'); repeat split.
    + simpl; congruence.
    + exact Hset.
    + intros [|j] Hj; simpl in *; [exact Hj | apply Hmono, Hj].
Qed.

Lemma set_all_spec : forall idxs l,
  Forall (fun i => i < List.length l) idxs ->
  exists l', Bloom.set_all l idxs = Some l' /\ List.length l' = List.length l
    /\ Forall (fun i => nth_error l' i = Some x01) idxs
    /\ (forall j, nth_error l j = Some x01 -> nth_error l' j = Some x01).
Proof.
  induction idxs as [|i idxs IH]; intros l Hall; simpl.
  - exists l; repeat split; [constructor | auto].
  - inversion Hall as [|? ? Hi Hrest]; subst.
    destruct (set_index_spec l i Hi) as [l1 [Heq1 [Hlen1 [Hset1 Hmono1]]]].
    rewrite Heq1.
    assert (Hrest' : Forall (fun i => i < List.length l1) idxs)
      by (rewrite Hlen1; exact Hrest).
    destruct (IH l1 Hrest') as [l2 [Heq2 [Hlen2 [Hset2 Hmono2]]]].
    exists l2; repeat split.
    + exact Heq2.
    + congruence.
    + constructor; [apply Hmono2, Hset1 | exact Hset2].
    + intros j Hj; apply Hmono2, Hmono1, Hj.
Qed.

Lemma all_set_true : forall idxs l,
  Forall (fun i => nth_error l i = Some x01) idxs -> Bloom.all_set l idxs = Some true.
Proof.
  induction idxs as [|i idxs IH]; intros l Hall; simpl; [reflexivity|].
  inversion Hall as [|? ? Hi Hrest]; subst.
  rewrite Hi; simpl; apply IH, Hrest.
Qed.

Lemma add_keys_spec : forall keys f,
  Bloom.bloom_wf f ->
  exists f', add_keys f keys = Some f' /\ Bloom.hasher f' = Bloom.hasher f
    /\ Bloom.bloom_wf f'
    /\ (forall j, nth_error (Bloom.filter f) j = Some x01 ->
                  nth_error (Bloom.filter f') j = Some x01)
    /\ (forall k idxs, In k keys -> hash_key (Bloom.hasher f) k = Some idxs ->
          Forall (fun i => nth_error (Bloom.filter f') i = Some x01) idxs).
Proof.
  induction keys as [|k keys IH]; intros f [Hlen Hpos]; simpl.
  - exists f; repeat split; try assumption.
    + intros j Hj; exact Hj.
    + intros k idxs [].
  - unfold Bloom.add_key.
    destruct (hash_key_in_range (Bloom.hasher f) k Hpos) as [idxs [Hh Hr]].
    rewrite Hh.
    assert (Hr' : Forall (fun i => i < List.length (Bloom.filter f)) idxs)
      by (rewrite Hlen; exact Hr).
    destruct (set_all_spec idxs (Bloom.filter f) Hr') as [l1 [Hs [Hl1 [Hset Hmono]]]].
    rewrite Hs.
    set (f1 := Bloom.mkBloomFilter l1 (Bloom.hasher f)).
    assert (Hwf1 : Bloom.bloom_wf f1) by (split; simpl; [congruence | assumption]).
    destruct (IH f1 Hwf1) as [f' [Heq [Hhs [Hwf' [Hmono' Hkeys]]]]].
    exists f'; repeat split.
    + exact Heq.
    + rewrite Hhs; reflexivity.
    + apply Hwf'.
    + apply Hwf'.
    + intros j Hj; apply Hmono', Hmono, Hj.
    + intros k' idxs' [<- | Hin] Hk'.
      * rewrite Hh in Hk'; injection Hk' as <-.
        eapply Forall_impl; [|exact Hset]; intros i Hi; apply Hmono', Hi.
      * apply (Hkeys k' idxs' Hin); exact Hk'.
Qed.

(** C6: after any sequence of [add_key] calls that includes [k],
    [may_contain_key k] is [true] (no false negatives), whatever the
    hasher, for a filter of positive size whose bit buffer has that size. *)
Theorem bloom_no_false_negatives : forall f keys k,
  Bloom.bloom_wf f -> In k keys ->
  match add_keys f keys with
  | Some f' => may_contain_key f' k = Some true
  | None => False
  end.
Proof.
  intros f keys k Hwf Hin.
  destruct (add_keys_spec keys f Hwf) as [f' [Heq [Hhs [[Hlen Hpos] [_ Hkeys]]]]].
  rewrite Heq; unfold Bloom.may_contain_key.
  rewrite Hhs.
  destruct (hash_key_in_range (Bloom.hasher f) k) as [idxs [Hh _]];
    [apply Hwf|].
  rewrite Hh; apply all_set_true, (Hkeys k idxs Hin Hh).
Qed.

End BloomProofs.

Lemma bloom_no_false_negatives_witness :
  Bloom.bloom_wf (Bloom.new 8 2) /\ In "b" ["a"; "b"]
  /\ match Bloom.add_keys N 0%N poly_write poly_write_u8 poly_finish
             (Bloom.new 8 2) ["a"; "b"] with
     | Some f' => Bloom.may_contain_key N 0%N poly_write poly_write_u8 poly_finish
                    f' "b" = Some true
     | None => False
     end.
Proof.
  split; [split; simpl; [reflexivity | lia]|].
  split; [simpl; auto|].
  apply (bloom_no_false_negatives N 0%N poly_write poly_write_u8 poly_finish).
  - split; simpl; [reflexivity | lia].
  - simpl; auto.
Defined.

Section CodecProofs.

Variable compress : list byte -> list byte.
Variable decompress : list byte -> option (list byte).
Hypothesis decompress_compress : forall x, decompress (compress x) = Some x.

Local Abbreviation ins := (fun (t : MemTableBase) (e : string * MemValue) => insert (fst e) (snd e) t).

Lemma encoder_write_whole : forall enc eb buf,
  encoder_write whole_writes enc eb buf = (enc ++ buf, eb + List.length buf).
Proof. intros; unfold encoder_write, whole_writes; now rewrite firstn_all. Qed.

Lemma serialize_step_blocks : forall n idx e st,
  if Nat.leb BLOCK_THRESHOLD (encoded_bytes st + List.length (encode_key_value e)) || Nat.eqb idx (n - 1)
  then main_data (table_data (serialize_step compress whole_writes n idx e st))
         = main_data (table_data st) ++ frame (compress (encoder st ++ encode_key_value e))
       /\ encoder (serialize_step compress whole_writes n idx e st) = []
       /\ encoded_bytes (serialize_step compress whole_writes n idx e st) = 0
  else main_data (table_data (serialize_step compress whole_writes n idx e st)) = main_data (table_data st)
       /\ encoder (serialize_step compress whole_writes n idx e st) = encoder st ++ encode_key_value e
       /\ encoded_bytes (serialize_step compress whole_writes n idx e st)
          = encoded_bytes st + List.length (encode_key_value e).
Proof.
  intros n idx [k v] st.
  destruct v as [s|]; unfold serialize_step;
    repeat (rewrite encoder_write_whole; cbv beta iota zeta).
  - replace (encoded_bytes st + List.length (u64_to_be_bytes (String.length k))
             + List.length (as_bytes k) + List.length [x01]
             + List.length (u64_to_be_bytes (String.length s)) + List.length (as_bytes s))
      with (encoded_bytes st + List.length (encode_key_value (k, Put s)))
      by (unfold encode_key_value; rewrite !length_app; cbn [List.length]; lia).
    replace (((((encoder st ++ u64_to_be_bytes (String.length k)) ++ as_bytes k)
               ++ [x01]) ++ u64_to_be_bytes (String.length s)) ++ as_bytes s)
      with (encoder st ++ encode_key_value (k, Put s))
      by (unfold encode_key_value; rewrite <- !app_assoc; reflexivity).
    destruct (_ || _); cbn [main_data table_data encoder encoded_bytes];
      unfold frame; repeat split.
  - replace (encoded_bytes st + List.length (u64_to_be_bytes (String.length k))
             + List.length (as_bytes k) + List.length [x00])
      with (encoded_bytes st + List.length (encode_key_value (k, Delete)))
      by (unfold encode_key_value; rewrite !length_app; cbn [List.length]; lia).
    replace (((encoder st ++ u64_to_be_bytes (String.length k)) ++ as_bytes k) ++ [x00])
      with (encoder st ++ encode_key_value (k, Delete))
      by (unfold encode_key_value; rewrite <- !app_assoc; reflexivity).
    destruct (_ || _); cbn [main_data table_data encoder encoded_bytes];
      unfold frame; repeat split.
Qed.

Lemma encode_block_app : forall a b,
  encode_block (a ++ b) = encode_block a ++ encode_block b.
Proof. intros; unfold encode_block; now rewrite map_app, concat_app. Qed.

Lemma encode_block_cons : forall e es,
  encode_block (e :: es) = encode_key_value e ++ encode_block es.
Proof. reflexivity. Qed.

Lemma encode_block_single : forall e, encode_block [e] = encode_key_value e.
Proof. intros; unfold encode_block; simpl; apply app_nil_r. Qed.

Lemma frames_cons : forall b bs,
  frames compress (b :: bs) = frame (compress (encode_block b)) ++ frames compress bs.
Proof. reflexivity. Qed.

Lemma split_loop_cons : forall n idx e r cur eb,
  split_loop n idx (e :: r) cur eb =
  if Nat.leb BLOCK_THRESHOLD (eb + List.length (encode_key_value e)) || Nat.eqb idx (n - 1)
  then (cur ++ [e]) :: split_loop n (S idx) r [] 0
  else split_loop n (S idx) r (cur ++ [e]) (eb + List.length (encode_key_value e)).
Proof. reflexivity. Qed.

Lemma serialize_loop_blocks : forall n es idx st cur,
  encoder st = encode_block cur ->
  encoded_bytes st = List.length (encoder st) ->
  main_data (table_data (serialize_loop compress whole_writes n idx es st))
  = main_data (table_data st)
    ++ frames compress (split_loop n idx es cur (encoded_bytes st)).
Proof.
  intros n es; induction es as [|e r IH]; intros idx st cur Henc Heb.
  - simpl; now rewrite app_nil_r.
  - change (serialize_loop compress whole_writes n idx (e :: r) st)
      with (serialize_loop compress whole_writes n (S idx) r (serialize_step compress whole_writes n idx e st)).
    rewrite split_loop_cons.
    pose proof (serialize_step_blocks n idx e st) as H.
    revert H; destruct (_ || _); intros [Hm [He Hb]].
    + rewrite (IH (S idx) _ []) by (rewrite ?He, ?Hb; reflexivity).
      rewrite Hb, Hm, frames_cons, encode_block_app, encode_block_single, <- Henc.
      now rewrite app_assoc.
    + rewrite (IH (S idx) _ (cur ++ [e])).
      * now rewrite Hb, Hm.
      * now rewrite He, Henc, encode_block_app, encode_block_single.
      * rewrite Hb, He, Heb, length_app; reflexivity.
Qed.

Lemma serialize_main_data : forall m,
  main_data (serialize compress m) = frames compress (split_blocks m).
Proof.
  intros m; unfold serialize, serialize_writes, split_blocks.
  rewrite (serialize_loop_blocks _ _ _ _ []) by reflexivity.
  reflexivity.
Qed.

Lemma split_loop_concat : forall n es idx cur eb,
  idx + List.length es = n -> (es <> [] \/ cur = []) ->
  List.concat (split_loop n idx es cur eb) = cur ++ es.
Proof.
  intros n es; induction es as [|e r IH]; intros idx cur eb Hn Hc.
  - destruct Hc as [Hc|Hc]; [congruence|subst; reflexivity].
  - rewrite split_loop_cons.
    destruct (_ || _) eqn:C.
    + simpl List.concat; rewrite (IH _ [] 0) by (simpl in Hn; auto || lia).
      now rewrite <- app_assoc.
    + rewrite IH.
      * now rewrite <- app_assoc.
      * simpl in Hn; lia.
      * left; intros ->. apply Bool.orb_false_iff in C as [_ C].
        apply Nat.eqb_neq in C; simpl in Hn; lia.
Qed.

Lemma split_blocks_concat : forall m, List.concat (split_blocks m) = m.
Proof.
  intros m; unfold split_blocks; rewrite split_loop_concat; auto.
Qed.

Lemma read_key_value_encode : forall e rest,
  entry_ok e = true ->
  read_key_value (encode_key_value e ++ rest) = Ok (e, rest).
Proof.
  intros [k v] rest H; unfold entry_ok in H; simpl fst in H; simpl snd in H.
  apply andb_prop in H as [Hk Hv].
  destruct v as [s|]; unfold encode_key_value; rewrite <- !app_assoc.
  - destruct (read_string k ([x01] ++ u64_to_be_bytes (String.length s)
                               ++ as_bytes s ++ rest) Hk) as [R1 [R2 [R3 R4]]].
    destruct (read_string s rest Hv) as [S1 [S2 [S3 S4]]].
    unfold read_key_value; rewrite R1, R2; cbn [negb]. rewrite R3, R4; cbn [read_u8 app].
    rewrite S1, S2; cbn [negb]. now rewrite S3, S4.
  - destruct (read_string k ([x00] ++ rest) Hk) as [R1 [R2 [R3 R4]]].
    unfold read_key_value; rewrite R1, R2; cbn [negb]. rewrite R3, R4; reflexivity.
Qed.

Lemma encode_key_value_length : forall e, 8 <= List.length (encode_key_value e).
Proof.
  intros [k v]; unfold encode_key_value.
  rewrite length_app, u64_to_be_bytes_length; lia.
Qed.

Lemma read_records_S : forall f c tbl,
  read_records (S f) c tbl =
  match read_key_value c with
  | Ok ((k, v), c') => read_records f c' (insert k v tbl)
  | Err => Ok tbl
  | Panic => Panic
  end.
Proof. reflexivity. Qed.

Lemma read_records_block : forall es fuel tbl,
  Forall (fun e => entry_ok e = true) es ->
  List.length (encode_block es) < fuel ->
  read_records fuel (encode_block es) tbl = Ok (fold_left ins es tbl).
Proof.
  induction es as [|e es IH]; intros fuel tbl Hok Hf;
    (destruct fuel as [|f]; [lia|]).
  - reflexivity.
  - inversion Hok as [|? ? He Hes]; subst.
    rewrite encode_block_cons in *. rewrite read_records_S.
    rewrite read_key_value_encode by exact He.
    destruct e as [k v]. cbn [fold_left fst snd].
    apply IH; [exact Hes|].
    rewrite length_app in Hf. pose proof (encode_key_value_length (k, v)). lia.
Qed.

Lemma read_blocks_S : forall f c tbl,
  c <> [] ->
  read_blocks decompress (S f) c tbl =
  match read_u64 c with
  | None => Err
  | Some (l, c1) =>
  if negb (vec_fits l) then Panic else
  match read_exact l c1 with
  | None => Err
  | Some (raw, c2) =>
  match decompress raw with
  | None => Err
  | Some blk =>
      match read_records (S (List.length blk)) blk tbl with
      | Ok tbl' => read_blocks decompress f c2 tbl'
      | Err => Err
      | Panic => Panic
      end
  end end end.
Proof. intros f [|x r] tbl H; [congruence|reflexivity]. Qed.

Lemma read_blocks_frames : forall bs fuel tbl,
  Forall (fun b => Forall (fun e => entry_ok e = true) b
                   /\ (N.of_nat (List.length (compress (encode_block b))) <= isize_max)%N) bs ->
  List.length (frames compress bs) < fuel ->
  read_blocks decompress fuel (frames compress bs) tbl
  = Ok (fold_left ins (List.concat bs) tbl).
Proof.
  induction bs as [|b bs IH]; intros fuel tbl Hok Hf;
    (destruct fuel as [|f]; [lia|]).
  - reflexivity.
  - inversion Hok as [|? ? [Hb Hl] Hbs]; subst.
    rewrite frames_cons in *. unfold frame in *. rewrite <- app_assoc.
    rewrite !length_app, u64_to_be_bytes_length in Hf.
    rewrite read_blocks_S.
    2:{ intros E. apply (f_equal (@List.length byte)) in E.
        rewrite length_app, u64_to_be_bytes_length in E. simpl in E. lia. }
    rewrite read_u64_u64 by (pose proof isize_max_lt; lia).
    replace (vec_fits (N.of_nat (List.length (compress (encode_block b))))) with true
      by (symmetry; apply N.leb_le; exact Hl).
    cbn [negb].
    rewrite read_exact_prefix, decompress_compress.
    rewrite read_records_block by (auto || lia).
    rewrite IH by (auto || lia).
    simpl List.concat. now rewrite fold_left_app.
Qed.

Lemma frames_length_ge : forall bs b,
  In b bs -> List.length (compress (encode_block b)) <= List.length (frames compress bs).
Proof.
  induction bs as [|b0 bs IH]; intros b Hin; [destruct Hin|].
  rewrite frames_cons, length_app; unfold frame; rewrite length_app.
  destruct Hin as [<-|Hin]; [lia|].
  specialize (IH b Hin); lia.
Qed.

Lemma all_greater_In : forall k m k' v',
  all_greater k m = true -> In (k', v') m -> String.compare k k' = Lt.
Proof.
  intros k m; induction m as [|[k0 v0] r IH]; simpl; intros k' v' H Hin;
    [contradiction|].
  destruct (String.compare k k0) eqn:E; try discriminate.
  destruct Hin as [Heq|Hin]; [injection Heq; intros; subst; exact E | eauto].
Qed.

Lemma insert_after : forall acc k v,
  (forall k' v', In (k', v') acc -> String.compare k' k = Lt) ->
  insert k v acc = acc ++ [(k, v)].
Proof.
  induction acc as [|[k0 v0] r IH]; intros k v H; simpl; [reflexivity|].
  assert (E : String.compare k0 k = Lt) by (apply (H k0 v0); left; reflexivity).
  rewrite String.compare_antisym, E; simpl.
  f_equal; apply IH; intros k' v' Hin; apply (H k' v'); right; exact Hin.
Qed.

Lemma keys_sorted_app_lt : forall acc k v m,
  keys_sorted (acc ++ (k, v) :: m) = true ->
  forall k' v', In (k', v') acc -> String.compare k' k = Lt.
Proof.
  induction acc as [|[k0 v0] r IH]; simpl; intros k v m H k' v' Hin;
    [contradiction|].
  apply andb_prop in H as [Hg Hs].
  destruct Hin as [Heq|Hin].
  - injection Heq; intros; subst.
    apply (all_greater_In _ _ _ v Hg), in_app_iff; right; left; reflexivity.
  - eauto.
Qed.

Lemma fold_insert_sorted : forall m acc,
  keys_sorted (acc ++ m) = true -> fold_left ins m acc = acc ++ m.
Proof.
  induction m as [|[k v] r IH]; intros acc H; simpl; [now rewrite app_nil_r|].
  rewrite insert_after by (eapply keys_sorted_app_lt; eauto).
  rewrite IH; rewrite <- app_assoc; [reflexivity|exact H].
Qed.

(** The data file [serialize] writes when every [write] takes its whole
    argument reads back as the table it was written from: the same keys
    in the same order with the same Put/Delete slots, for a table with
    keys strictly increasing, keys and values Rust strings, and blocks
    whose compressed lengths fit [vec!]. *)
Lemma serialize_whole_writes_roundtrip : forall m,
  keys_sorted m = true ->
  forallb entry_ok m = true ->
  (N.of_nat (List.length (main_data (serialize compress m))) <= isize_max)%N ->
  try_from_file decompress (main_data (serialize compress m)) = Ok m.
Proof.
  intros m Hs Hok Hlen. rewrite serialize_main_data in *. unfold try_from_file.
  rewrite read_blocks_frames.
  - rewrite split_blocks_concat. f_equal. apply (fold_insert_sorted m []). exact Hs.
  - apply Forall_forall; intros b Hb; split.
    + apply Forall_forall; intros e He.
      apply (proj1 (forallb_forall _ _) Hok).
      rewrite <- (split_blocks_concat m). apply in_concat; eauto.
    + pose proof (frames_length_ge _ _ Hb); lia.
  - lia.
Qed.

End CodecProofs.

(** C7: decoding the data file [serialize] writes gives back the table
    it was written from. It does not when a [GzEncoder::write] takes
    fewer bytes than it is offered: the code adds the returned count to
    [encoded_bytes] and drops the rest of the buffer. For the table
    [{k: Put v}], when the writes of the key, the kind byte and the
    value length are taken whole and the write of the value's bytes is
    short, the block holds a record whose value is cut; [read_key_value]
    fails on it, the record loop ends, and [try_from_file] returns the
    empty table, for any compressor whose decompressor undoes it. *)
Theorem serialize_short_write_drops_key :
  forall (compress : list byte -> list byte) (decompress : list byte -> option (list byte))
         (gz_write : list byte -> list byte -> nat) (k v : string),
  (forall x, decompress (compress x) = Some x) ->
  string_ok k = true -> string_ok v = true ->
  (forall enc, gz_write enc (u64_to_be_bytes (String.length k)) = 8) ->
  (forall enc, gz_write enc (as_bytes k) = String.length k) ->
  (forall enc, gz_write enc [x01] = 1) ->
  (forall enc, gz_write enc (u64_to_be_bytes (String.length v)) = 8) ->
  (forall enc, gz_write enc (as_bytes v) < String.length v) ->
  (N.of_nat (List.length (main_data (serialize_writes compress gz_write [(k, Put v)])))
     <= isize_max)%N ->
  try_from_file decompress (main_data (serialize_writes compress gz_write [(k, Put v)]))
  = Ok [].
Proof.
  intros compress decompress gz_write k v Hdc Hk Hv W1 W2 W3 W4 W5 Hlen.
  revert Hlen.
  cbv beta iota zeta delta [serialize_writes serialize_loop serialize_step encoder_write
                            fold_state_new len].
  cbn [List.length Nat.sub Nat.eqb encoder encoded_bytes table_data main_data offsets
       offset_counter app].
  rewrite W1, W2, W3, W4.
  rewrite (firstn_all2 (n := 8) (u64_to_be_bytes (String.length k)))
    by (rewrite u64_to_be_bytes_length; lia).
  rewrite (firstn_all2 (n := String.length k) (as_bytes k)) by (rewrite as_bytes_length; lia).
  rewrite (firstn_all2 (n := 8) (u64_to_be_bytes (String.length v)))
    by (rewrite u64_to_be_bytes_length; lia).
  cbn [firstn app].
  lazymatch goal with
  | |- context [gz_write ?e (as_bytes v)] =>
      pose proof (W5 e) as Hn; remember (gz_write e (as_bytes v)) as n eqn:En; clear En
  end.
  rewrite Bool.orb_true_r.
  cbn [main_data table_data app].
  rewrite <- !app_assoc.
  set (enc := u64_to_be_bytes (String.length k) ++ as_bytes k ++ [x01]
              ++ u64_to_be_bytes (String.length v) ++ firstn n (as_bytes v)).
  set (c := compress enc).
  intros Hlen.
  rewrite length_app, u64_to_be_bytes_length in Hlen.
  unfold try_from_file.
  rewrite read_blocks_S.
  2:{ intros E. apply (f_equal (@List.length byte)) in E.
      rewrite length_app, u64_to_be_bytes_length in E. discriminate. }
  rewrite read_u64_u64 by (pose proof isize_max_lt; lia).
  replace (vec_fits (N.of_nat (List.length c))) with true
    by (symmetry; apply N.leb_le; lia).
  cbn [negb].
  pose proof (read_exact_prefix c []) as Rc; rewrite app_nil_r in Rc; rewrite Rc.
  unfold c; rewrite Hdc; fold c.
  rewrite read_records_S.
  destruct (read_string k ([x01] ++ u64_to_be_bytes (String.length v)
                             ++ firstn n (as_bytes v)) Hk) as [R1 [R2 [R3 R4]]].
  apply andb_prop in Hv as [Hv1 _]; apply N.leb_le in Hv1.
  unfold enc, read_key_value; rewrite R1, R2; cbn [negb]. rewrite R3, R4; cbn [read_u8 app].
  rewrite read_u64_u64 by (pose proof isize_max_lt; lia).
  replace (vec_fits (N.of_nat (String.length v))) with true
    by (symmetry; apply N.leb_le; exact Hv1).
  cbn [negb].
  rewrite read_exact_short
    by (rewrite firstn_length_le by (rewrite as_bytes_length; lia); lia).
  destruct (List.length (u64_to_be_bytes (List.length c) ++ c)); reflexivity.
Qed.

Lemma serialize_short_write_drops_key_witness :
  try_from_file (@Some (list byte))
    (main_data (serialize_writes (fun x : list byte => x) capped_write [("k", Put long_value)]))
  = Ok [].
Proof.
  apply (serialize_short_write_drops_key (fun x : list byte => x) (@Some (list byte))
           capped_write "k" long_value (fun x => eq_refl)).
  - vm_compute; reflexivity.
  - vm_compute; reflexivity.
  - intros enc; reflexivity.
  - intros enc; reflexivity.
  - intros enc; reflexivity.
  - intros enc; vm_compute; reflexivity.
  - intros enc; apply Nat.ltb_lt; vm_compute; reflexivity.
  - apply N.leb_le; vm_compute; reflexivity.
Defined.

End Proofs.


(* ================================================================== *)
(** * Further properties of the code *)

Module Extras.
Import MemTable Codec Registry Compactor Inputs Proofs.
Local Open Scope string_scope.
Local Open Scope list_scope.

(** ** Ordered maps *)

Lemma string_compare_refl : forall s, String.compare s s = Eq.
Proof.
  induction s as [|c s IH]; simpl; [reflexivity|].
  unfold Ascii.compare; now rewrite N.compare_refl.
Qed.

Lemma string_compare_eq : forall a b, String.compare a b = Eq <-> a = b.
Proof.
  intros a b; split; [apply String.compare_eq_iff | intros ->; apply string_compare_refl].
Qed.

Lemma string_lt_trans : forall a b c,
  String.compare a b = Lt -> String.compare b c = Lt -> String.compare a c = Lt.
Proof.
  induction a as [|x a IH]; intros [|y b] [|z c]; simpl; try discriminate; try reflexivity.
  unfold Ascii.compare.
  destruct (N.compare_spec (N_of_ascii x) (N_of_ascii y)) as [Hxy|Hxy|Hxy];
    destruct (N.compare_spec (N_of_ascii y) (N_of_ascii z)) as [Hyz|Hyz|Hyz];
    intros H1 H2; try discriminate.
  - rewrite Hxy, Hyz, N.compare_refl; eauto.
  - rewrite Hxy, (proj2 (N.compare_lt_iff _ _) Hyz); reflexivity.
  - rewrite <- Hyz, (proj2 (N.compare_lt_iff _ _) Hxy); reflexivity.
  - rewrite (proj2 (N.compare_lt_iff _ _) (N.lt_trans _ _ _ Hxy Hyz)); reflexivity.
Qed.

Lemma string_compare_gt_lt : forall a b, String.compare a b = Gt -> String.compare b a = Lt.
Proof. intros a b H; rewrite String.compare_antisym, H; reflexivity. Qed.

Lemma string_compare_neq : forall a b, a <> b -> String.compare a b <> Eq.
Proof. intros a b H E; apply H, String.compare_eq_iff, E. Qed.

Lemma keys_sorted_cons : forall k v m,
  keys_sorted ((k, v) :: m) = true <-> all_greater k m = true /\ keys_sorted m = true.
Proof. intros; simpl; apply andb_true_iff. Qed.

Lemma all_greater_trans : forall k k' m,
  String.compare k k' = Lt -> all_greater k' m = true -> all_greater k m = true.
Proof.
  intros k k' m; induction m as [|[k1 v1] r IH]; simpl; intros Hlt H; [reflexivity|].
  destruct (String.compare k' k1) eqn:E; try discriminate.
  rewrite (string_lt_trans _ _ _ Hlt E); auto.
Qed.

Lemma lookup_all_greater : forall k k' m,
  String.compare k k' <> Gt -> all_greater k' m = true -> lookup k m = None.
Proof.
  intros k k' [|[k1 v1] r] Hle H; simpl in *; [reflexivity|].
  destruct (String.compare k' k1) eqn:E; try discriminate.
  destruct (String.compare k k') eqn:E'; [| |congruence].
  - apply String.compare_eq_iff in E'; subst; now rewrite E.
  - now rewrite (string_lt_trans _ _ _ E' E).
Qed.

Lemma lookup_insert_same : forall k v m, lookup k (insert k v m) = Some v.
Proof.
  intros k v m; induction m as [|[k0 v0] r IH]; simpl.
  - now rewrite string_compare_refl.
  - destruct (String.compare k k0) eqn:E; simpl; rewrite ?string_compare_refl, ?E; auto.
Qed.

Lemma lookup_insert_other : forall k k' v m,
  k' <> k -> lookup k' (insert k v m) = lookup k' m.
Proof.
  intros k k' v m Hne; apply string_compare_neq in Hne.
  induction m as [|[k0 v0] r IH]; simpl.
  - destruct (String.compare k' k); congruence.
  - destruct (String.compare k k0) eqn:E; simpl.
    + apply String.compare_eq_iff in E; subst.
      destruct (String.compare k' k0); congruence.
    + destruct (String.compare k' k) eqn:E'; [congruence| |].
      * now rewrite (string_lt_trans _ _ _ E' E).
      * reflexivity.
    + destruct (String.compare k' k0); congruence.
Qed.

Lemma remove_lookup : forall k m,
  fst (remove k m) = lookup k m.
Proof.
  intros k m; induction m as [|[k0 v0] r IH]; simpl; [reflexivity|].
  destruct (String.compare k k0); simpl; try reflexivity.
  destruct (remove k r) as [o r']; simpl in *; exact IH.
Qed.

Lemma lookup_remove_same : forall k m,
  keys_sorted m = true -> lookup k (snd (remove k m)) = None.
Proof.
  intros k m; induction m as [|[k0 v0] r IH]; simpl; intros Hs; [reflexivity|].
  apply andb_true_iff in Hs as [Hg Hs].
  destruct (String.compare k k0) eqn:E; simpl.
  - apply String.compare_eq_iff in E; subst.
    apply (lookup_all_greater _ k0); [rewrite string_compare_refl; congruence | exact Hg].
  - now rewrite E.
  - destruct (remove k r) as [o r'] eqn:Hr; simpl in *.
    rewrite E; apply IH, Hs.
Qed.

Lemma lookup_remove_other : forall k k' m,
  keys_sorted m = true -> k' <> k -> lookup k' (snd (remove k m)) = lookup k' m.
Proof.
  intros k k' m Hs Hne; apply string_compare_neq in Hne.
  induction m as [|[k0 v0] r IH]; simpl; [reflexivity|].
  apply andb_true_iff in Hs as [Hg Hs].
  destruct (String.compare k k0) eqn:E; simpl.
  - apply String.compare_eq_iff in E; subst.
    destruct (String.compare k' k0) eqn:E'; [congruence| |reflexivity].
    apply (lookup_all_greater _ k0); [congruence | exact Hg].
  - reflexivity.
  - destruct (remove k r) as [o r'] eqn:Hr; simpl in *.
    destruct (String.compare k' k0); auto.
Qed.

Lemma all_greater_insert : forall k0 k v r,
  String.compare k0 k = Lt -> all_greater k0 r = true -> all_greater k0 (insert k v r) = true.
Proof.
  intros k0 k v r Hlt; induction r as [|[k1 v1] r IH]; simpl; intros H.
  - now rewrite Hlt.
  - destruct (String.compare k0 k1) eqn:E1; try discriminate.
    destruct (String.compare k k1); simpl; rewrite ?Hlt, ?E1; auto.
Qed.

Lemma all_greater_remove : forall k0 k r,
  all_greater k0 r = true -> all_greater k0 (snd (remove k r)) = true.
Proof.
  intros k0 k r; induction r as [|[k1 v1] r IH]; simpl; intros H; [reflexivity|].
  destruct (String.compare k0 k1) eqn:E1; try discriminate.
  destruct (String.compare k k1); simpl.
  - exact H.
  - rewrite E1; exact H.
  - destruct (remove k r) as [o r'] eqn:Hr; simpl in *; rewrite E1; auto.
Qed.

Lemma insert_sorted : forall k v m,
  keys_sorted m = true -> keys_sorted (insert k v m) = true.
Proof.
  intros k v m; induction m as [|[k0 v0] r IH]; simpl; intros Hs; [reflexivity|].
  apply andb_true_iff in Hs as [Hg Hs].
  destruct (String.compare k k0) eqn:E; simpl.
  - apply String.compare_eq_iff in E; subst; now rewrite Hg, Hs.
  - rewrite E, Hg, Hs, (all_greater_trans _ _ _ E Hg); reflexivity.
  - rewrite (all_greater_insert _ _ _ _ (string_compare_gt_lt _ _ E) Hg), IH; auto.
Qed.

Lemma remove_sorted : forall k m,
  keys_sorted m = true -> keys_sorted (snd (remove k m)) = true.
Proof.
  intros k m; induction m as [|[k0 v0] r IH]; simpl; intros Hs; [reflexivity|].
  apply andb_true_iff in Hs as [Hg Hs].
  destruct (String.compare k k0) eqn:E; simpl.
  - exact Hs.
  - now rewrite Hg, Hs.
  - destruct (remove k r) as [o r'] eqn:Hr; simpl in *.
    pose proof (all_greater_remove k0 k r Hg) as Hg'; rewrite Hr in Hg'; simpl in Hg'.
    specialize (IH Hs); rewrite Hg', IH; reflexivity.
Qed.

Lemma insert_length : forall k v m,
  List.length (insert k v m)
  = match lookup k m with Some _ => List.length m | None => S (List.length m) end.
Proof.
  intros k v m; induction m as [|[k0 v0] r IH]; simpl; [reflexivity|].
  destruct (String.compare k k0); simpl; [reflexivity|reflexivity|].
  rewrite IH; destruct (lookup k r); reflexivity.
Qed.

Lemma remove_length : forall k m,
  List.length (snd (remove k m))
  = match lookup k m with Some _ => List.length m - 1 | None => List.length m end.
Proof.
  intros k m; induction m as [|[k0 v0] r IH]; simpl; [reflexivity|].
  destruct (String.compare k k0); simpl; [lia|reflexivity|].
  destruct (remove k r) as [o r'] eqn:Hr; simpl in *.
  rewrite IH; destruct (lookup k r) eqn:L; [|reflexivity].
  destruct r as [|x r]; [discriminate|simpl; lia].
Qed.

Lemma lookup_In : forall k v m, lookup k m = Some v -> In (k, v) m.
Proof.
  intros k v m; induction m as [|[k0 v0] r IH]; simpl; intros H; [discriminate|].
  destruct (String.compare k k0) eqn:E; try discriminate.
  - apply String.compare_eq_iff in E; injection H; intros; subst; now left.
  - right; auto.
Qed.

Lemma In_lookup : forall k v m, keys_sorted m = true -> In (k, v) m -> lookup k m = Some v.
Proof.
  intros k v m; induction m as [|[k0 v0] r IH]; simpl; intros Hs Hin; [contradiction|].
  apply andb_true_iff in Hs as [Hg Hs].
  destruct Hin as [Heq|Hin].
  - injection Heq; intros; subst; now rewrite string_compare_refl.
  - pose proof (all_greater_In _ _ _ _ Hg Hin) as Hlt.
    rewrite String.compare_antisym, Hlt; simpl; auto.
Qed.


Lemma remove_absent : forall k m, lookup k m = None -> snd (remove k m) = m.
Proof.
  intros k m; induction m as [|[k0 v0] r IH]; simpl; intros H; [reflexivity|].
  destruct (String.compare k k0); try discriminate; [reflexivity|].
  destruct (remove k r) as [o r'] eqn:Hr; simpl in *; now rewrite IH.
Qed.

(** ** MemTable *)

(** X1: [get] right after [put(k, v)] returns [v], whatever the table. *)
Theorem memtable_get_after_put : forall k v m,
  memtable_get_inner (put k v m) k = Some v.
Proof.
  intros k v m; unfold memtable_get_inner, put; now rewrite lookup_insert_same.
Qed.

(** X2: [get] right after [delete(k)] returns [None], on any table with
    increasing keys: the key is either removed or replaced by a
    tombstone. *)
Theorem memtable_get_after_delete : forall k m,
  keys_sorted m = true -> memtable_get_inner (delete k m) k = None.
Proof.
  intros k m Hs; unfold memtable_get_inner, delete.
  pose proof (lookup_remove_same k m Hs) as H.
  destruct (remove k m) as [[o|] m'] eqn:Hr; simpl in H.
  - now rewrite H.
  - now rewrite lookup_insert_same.
Qed.

Lemma memtable_get_after_delete_witness :
  keys_sorted [("a", Put "1"); ("b", Put "2")] = true
  /\ memtable_get_inner (delete "a" [("a", Put "1"); ("b", Put "2")]) "a" = None.
Proof.
  split; [reflexivity|].
  apply memtable_get_after_delete; reflexivity.
Defined.

(** X3: [put] and [delete] of one key do not change what [get] returns
    for any other key, on a table with increasing keys. *)
Theorem memtable_writes_leave_other_keys : forall k k' v m,
  keys_sorted m = true -> k' <> k ->
  memtable_get_inner (put k v m) k' = memtable_get_inner m k'
  /\ memtable_get_inner (delete k m) k' = memtable_get_inner m k'.
Proof.
  intros k k' v m Hs Hne; unfold memtable_get_inner, put, delete; split.
  - now rewrite lookup_insert_other.
  - pose proof (lookup_remove_other k k' m Hs Hne) as H.
    destruct (remove k m) as [[o|] m'] eqn:Hr; simpl in H.
    + now rewrite H.
    + now rewrite lookup_insert_other, H.
Qed.

Lemma memtable_writes_leave_other_keys_witness :
  keys_sorted [("a", Put "1"); ("b", Put "2")] = true /\ "b" <> "a"
  /\ memtable_get_inner (put "a" "9" [("a", Put "1"); ("b", Put "2")]) "b"
     = memtable_get_inner [("a", Put "1"); ("b", Put "2")] "b"
  /\ memtable_get_inner (delete "a" [("a", Put "1"); ("b", Put "2")]) "b"
     = memtable_get_inner [("a", Put "1"); ("b", Put "2")] "b".
Proof.
  split; [reflexivity|]. split; [discriminate|].
  apply memtable_writes_leave_other_keys; [reflexivity|discriminate].
Defined.

(** X4: [put] and [delete] keep the keys of the table strictly
    increasing (the order the serializer writes them in). *)
Theorem memtable_writes_keep_keys_sorted : forall k v m,
  keys_sorted m = true ->
  keys_sorted (put k v m) = true /\ keys_sorted (delete k m) = true.
Proof.
  intros k v m Hs; unfold put, delete; split; [now apply insert_sorted|].
  pose proof (remove_sorted k m Hs) as H.
  destruct (remove k m) as [[o|] m'] eqn:Hr; simpl in H; [exact H|].
  now apply insert_sorted.
Qed.

Lemma memtable_writes_keep_keys_sorted_witness :
  keys_sorted [("b", Put "2")] = true
  /\ keys_sorted (put "a" "1" [("b", Put "2")]) = true
  /\ keys_sorted (delete "a" [("b", Put "2")]) = true.
Proof.
  split; [reflexivity|]. apply memtable_writes_keep_keys_sorted; reflexivity.
Defined.

(** X5: [len] after a write: [put] adds an entry only for a new key;
    [delete] removes the entry of a present key, and adds a tombstone
    entry for an absent key, so deleting an absent key grows the table. *)
Theorem memtable_len_after_writes : forall k v m,
  len (put k v m) = match lookup k m with Some _ => len m | None => S (len m) end
  /\ len (delete k m) = match lookup k m with Some _ => len m - 1 | None => S (len m) end.
Proof.
  intros k v m; unfold len, put, delete; split; [apply insert_length|].
  pose proof (remove_length k m) as Hl; pose proof (remove_lookup k m) as Hf.
  destruct (lookup k m) eqn:L.
  - destruct (remove k m) as [[o|] m'] eqn:Hr; simpl in *; [exact Hl | discriminate].
  - pose proof (remove_absent k m L) as Hm.
    destruct (remove k m) as [[o|] m'] eqn:Hr; simpl in *; [discriminate|].
    subst m'; now rewrite insert_length, L.
Qed.

(** ** The engine *)

(** X6: [get(k)] right after [put(k, v)] returns [v], whether or not the
    put makes the main table full and moves it to the secondary table. *)
Theorem db_get_after_put : forall db k v, Db.get (Db.db_put db k v) k = Some v.
Proof.
  intros db k v; unfold Db.get, Db.db_put, Db.maybe_flush_memtable, Db.with_main.
  destruct (Nat.leb _ _); simpl; unfold Db.get_from, memtable_get_inner, put; simpl;
    rewrite lookup_insert_same; reflexivity.
Qed.

Lemma apply_op_len_step : forall db o,
  len (match o with
       | Db.OpPut k v => put k v (Db.main_table db)
       | Db.OpDelete k => delete k (Db.main_table db)
       end) <= S (len (Db.main_table db)).
Proof.
  intros db [k v|k]; destruct (memtable_len_after_writes k "" (Db.main_table db)) as [Hp Hd].
  - destruct (memtable_len_after_writes k v (Db.main_table db)) as [Hp' _].
    rewrite Hp'; destruct (lookup k _); lia.
  - rewrite Hd; destruct (lookup k _); lia.
Qed.

Lemma apply_op_inv : forall max db o,
  (Db.max_memtable_size db = max /\ len (Db.main_table db) < max /\ Forall (fun t => len t = max) (Db.sst_tables db)) ->
  (Db.max_memtable_size (Db.apply_op db o) = max /\ len (Db.main_table (Db.apply_op db o)) < max /\ Forall (fun t => len t = max) (Db.sst_tables (Db.apply_op db o))).
Proof.
  intros max db o [Hm [Hl Hs]].
  pose proof (apply_op_len_step db o) as Hstep.
  assert (E : Db.apply_op db o
              = Db.maybe_flush_memtable
                  (Db.with_main db (match o with
                                    | Db.OpPut k v => put k v (Db.main_table db)
                                    | Db.OpDelete k => delete k (Db.main_table db)
                                    end)))
    by (destruct o; reflexivity).
  rewrite E; clear E.
  set (m' := match o with Db.OpPut k v => _ | Db.OpDelete k => _ end) in *.
  unfold Db.maybe_flush_memtable, Db.with_main, Db.flush_memtable; simpl.
  rewrite Hm.
  destruct (Nat.leb_spec max (len m')) as [Hge|Hlt]; simpl.
  - split; [reflexivity|]. split; [unfold len; simpl; lia|].
    constructor; [lia | exact Hs].
  - auto.
Qed.

(** X7: starting from [BaumDb::new(max)] with [max > 0], after any
    sequence of puts and deletes the main table holds fewer than [max]
    entries, and every table handed to the flush task holds exactly
    [max] entries. *)
Theorem db_memtable_size_bound : forall max ops,
  0 < max ->
  len (Db.main_table (Db.run (Db.new max) ops)) < max
  /\ Forall (fun t => len t = max) (Db.sst_tables (Db.run (Db.new max) ops)).
Proof.
  intros max ops Hpos.
  assert (H : forall db, (Db.max_memtable_size db = max /\ len (Db.main_table db) < max /\ Forall (fun t => len t = max) (Db.sst_tables db)) ->
    (Db.max_memtable_size (fold_left Db.apply_op ops db) = max /\ len (Db.main_table (fold_left Db.apply_op ops db)) < max /\ Forall (fun t => len t = max) (Db.sst_tables (fold_left Db.apply_op ops db)))).

  { induction ops as [|o ops IH]; intros db Hdb; simpl; [exact Hdb|].
    apply IH, apply_op_inv, Hdb. }
  destruct (H (Db.new max)) as [_ [Hl Hs]].
  - split; [reflexivity|]. split; [unfold len; simpl; lia | constructor].
  - split; assumption.
Qed.

Lemma db_memtable_size_bound_witness :
  0 < 2
  /\ len (Db.main_table (Db.run (Db.new 2) [Db.OpPut "a" "1"; Db.OpPut "b" "2"; Db.OpDelete "c"])) < 2
  /\ Forall (fun t => len t = 2)
       (Db.sst_tables (Db.run (Db.new 2) [Db.OpPut "a" "1"; Db.OpPut "b" "2"; Db.OpDelete "c"])).
Proof.
  split; [lia|]. apply db_memtable_size_bound; lia.
Defined.

(** ** Compaction *)

Lemma merge_newer_cons : forall m k0 v0 r,
  merge_newer m ((k0, v0) :: r)
  = merge_newer (match v0 with
                 | Put _ => insert k0 v0 m
                 | Delete => snd (remove k0 m)
                 end) r.
Proof. intros m k0 [s|] r; reflexivity. Qed.

(** X8: the merge of a newer table into the merger table
    ([Put => insert], [Delete => remove]): a key takes the newer table's
    value when it has a [Put] there, is absent after a tombstone there,
    and keeps the merger's slot otherwise; the keys stay increasing. *)
Theorem merge_newer_lookup : forall newer merger k,
  keys_sorted merger = true -> keys_sorted newer = true ->
  lookup k (merge_newer merger newer)
  = match lookup k newer with
    | Some (Put v) => Some (Put v)
    | Some Delete => None
    | None => lookup k merger
    end
  /\ keys_sorted (merge_newer merger newer) = true.
Proof.
  induction newer as [|[k0 v0] r IH]; intros merger k Hm Hn; [split; [reflexivity | exact Hm]|].
  apply andb_true_iff in Hn as [Hg Hr].
  rewrite merge_newer_cons.
  set (acc := match v0 with Put _ => insert k0 v0 merger | Delete => snd (remove k0 merger) end).
  assert (Hacc : keys_sorted acc = true)
    by (unfold acc; destruct v0; [apply insert_sorted | apply remove_sorted]; exact Hm).
  destruct (IH acc k Hacc Hr) as [IHl IHs]; split; [|exact IHs].
  rewrite IHl; simpl.
  destruct (String.compare k k0) eqn:E.
  - apply String.compare_eq_iff in E; subst k0.
    rewrite (lookup_all_greater k k) by (rewrite ?string_compare_refl; congruence || exact Hg).
    unfold acc; destruct v0; [apply lookup_insert_same | apply lookup_remove_same, Hm].
  - rewrite (lookup_all_greater k k0) by (congruence || exact Hg).
    unfold acc; destruct v0;
      [apply lookup_insert_other | apply lookup_remove_other; [exact Hm|]];
      intros ->; rewrite string_compare_refl in E; discriminate.
  - destruct (lookup k r) as [[s|]|]; try reflexivity.
    unfold acc; destruct v0;
      [apply lookup_insert_other | apply lookup_remove_other; [exact Hm|]];
      intros ->; rewrite string_compare_refl in E; discriminate.
Qed.

Lemma merge_newer_lookup_witness :
  keys_sorted [("a", Put "1"); ("k", Put "v")] = true
  /\ keys_sorted [("k", Delete)] = true
  /\ lookup "k" (merge_newer [("a", Put "1"); ("k", Put "v")] [("k", Delete)])
     = match lookup "k" [("k", Delete)] with
       | Some (Put v) => Some (Put v)
       | Some Delete => None
       | None => lookup "k" [("a", Put "1"); ("k", Put "v")]
       end
  /\ keys_sorted (merge_newer [("a", Put "1"); ("k", Put "v")] [("k", Delete)]) = true.
Proof.
  split; [reflexivity|]. split; [reflexivity|].
  apply merge_newer_lookup; reflexivity.
Defined.

(** ** Decoding *)

(** X15: [read_key_value] fails with [Err] on a record whose kind byte is
    neither 0 (Delete) nor 1 (Put), whatever follows it. *)
Theorem read_key_value_rejects_unknown_kind : forall k b rest,
  string_ok k = true -> 2 <= Byte.to_nat b ->
  read_key_value (u64_to_be_bytes (String.length k) ++ as_bytes k ++ b :: rest) = Err.
Proof.
  intros k b rest Hk Hb.
  destruct (read_string k (b :: rest) Hk) as [R1 [R2 [R3 R4]]].
  unfold read_key_value; rewrite R1, R2; cbn [negb]. rewrite R3, R4; cbn [read_u8].
  destruct b; try reflexivity; cbv in Hb; lia.
Qed.

Lemma read_key_value_rejects_unknown_kind_witness :
  read_key_value (u64_to_be_bytes (String.length "k") ++ as_bytes "k" ++ x02 :: [x00]) = Err.
Proof.
  apply read_key_value_rejects_unknown_kind; [vm_compute; reflexivity | cbv; lia].
Defined.


(** ** Bloom filter *)

Lemma to_nat_byte_of_N : forall n, n < 256 -> Byte.to_nat (byte_of_N (N.of_nat n)) = n.
Proof.
  intros n Hn. rewrite Byte.to_nat_via_N, to_N_byte_of_N, N.mod_small by lia.
  apply Nat2N.id.
Qed.

Lemma byte_of_N_to_nat : forall b, byte_of_N (N.of_nat (Byte.to_nat b)) = b.
Proof.
  intros b; unfold byte_of_N.
  rewrite <- Byte.to_N_via_nat.
  pose proof (Byte.to_N_bounded b).
  rewrite N.mod_small by lia. now rewrite Byte.of_to_N.
Qed.

Lemma bloom_bytes_roundtrip_aux : forall f,
  Bloom.bloom_wf f -> Bloom.n_hashes (Bloom.hasher f) < 256 ->
  Bloom.try_from (Bloom.into_bytes f) = Some f.
Proof.
  intros [fl [sz nh]] [Hlen Hpos] Hn; cbn [Bloom.filter Bloom.hasher Bloom.size
                                            Bloom.n_hashes] in *.
  unfold Bloom.try_from, Bloom.into_bytes; cbn [Bloom.filter Bloom.hasher Bloom.n_hashes].
  rewrite length_app; cbn [List.length].
  replace (Nat.ltb (List.length fl + 1) 2) with false by (symmetry; apply Nat.ltb_ge; lia).
  rewrite removelast_last, last_last, to_nat_byte_of_N by exact Hn.
  now rewrite Hlen.
Qed.

Section BloomExtras.

Variable HState : Type.
Variable hasher_new : HState.
Variable hasher_write : HState -> list byte -> HState.
Variable hasher_write_u8 : HState -> byte -> HState.
Variable hasher_finish : HState -> N.

Local Abbreviation hash_rounds :=
  (Bloom.hash_rounds HState hasher_write_u8 hasher_finish).
Local Abbreviation hash_key :=
  (Bloom.hash_key HState hasher_new hasher_write hasher_write_u8 hasher_finish).
Local Abbreviation add_key :=
  (Bloom.add_key HState hasher_new hasher_write hasher_write_u8 hasher_finish).
Local Abbreviation add_keys :=
  (Bloom.add_keys HState hasher_new hasher_write hasher_write_u8 hasher_finish).
Local Abbreviation may_contain_key :=
  (Bloom.may_contain_key HState hasher_new hasher_write hasher_write_u8 hasher_finish).
Local Abbreviation serialize_bloom :=
  (Bloom.serialize_bloom HState hasher_new hasher_write hasher_write_u8 hasher_finish).

Lemma hash_rounds_length : forall sz count idx st acc xs,
  hash_rounds sz idx count st acc = Some xs ->
  exists r, xs = acc ++ r /\ List.length r = count.
Proof.
  intros sz count; induction count as [|c IH]; intros idx st acc xs H; simpl in H.
  - injection H as <-. exists []; split; [now rewrite app_nil_r | reflexivity].
  - destruct (Nat.eqb sz 0); [discriminate|].
    destruct (IH _ _ _ _ H) as [r [-> Hr]].
    eexists; split; [rewrite <- app_assoc; reflexivity|].
    rewrite length_app; cbn [List.length]; lia.
Qed.

Lemma hash_key_prefix : forall h key,
  0 < Bloom.size h ->
  exists r, hash_key h key = Some (repeat 0 (Bloom.n_hashes h) ++ r)
            /\ List.length r = Bloom.n_hashes h
            /\ Forall (fun x => x < Bloom.size h) r.
Proof.
  intros h key Hpos; unfold Bloom.hash_key.
  destruct (hash_rounds_in_range HState hasher_write_u8 hasher_finish
              (Bloom.size h) (Bloom.n_hashes h) 0
              (hasher_write hasher_new (as_bytes key)) (repeat 0 (Bloom.n_hashes h)))
    as [xs [Heq Hall]]; [lia|].
  destruct (hash_rounds_length _ _ _ _ _ _ Heq) as [r [Hr Hlen]].
  apply app_inv_head in Hr; subst r.
  exists xs; split; [exact Heq|]. split; assumption.
Qed.

(** X16: on a hasher of positive size, [hash_key] returns [n_hashes]
    zeros (the initial vector) followed by [n_hashes] hashed indices,
    each below the size: index 0 is always among the indices. *)
Theorem hash_key_shape : forall h key,
  0 < Bloom.size h ->
  exists r, hash_key h key = Some (repeat 0 (Bloom.n_hashes h) ++ r)
            /\ List.length r = Bloom.n_hashes h
            /\ Forall (fun x => x < Bloom.size h) r.
Proof.
  intros h key Hpos.
  destruct (hash_key_prefix h key Hpos) as [r [H1 [H2 H3]]].
  exists r; split; [exact H1|]. split; assumption.
Qed.

(** X17: a fresh [DefaultBloomFilter::new(size, n_hashes)] with a
    positive size answers [may_contain_key] with [false] for every key
    when [n_hashes > 0] (the filter holds no set bit) and with [true] for
    every key when [n_hashes = 0] (no index is checked). *)
Theorem bloom_new_may_contain : forall size n key,
  0 < size ->
  may_contain_key (Bloom.new size n) key = Some (Nat.eqb n 0).
Proof.
  intros size n key Hpos. unfold Bloom.may_contain_key.
  destruct (hash_key_prefix (Bloom.hasher (Bloom.new size n)) key Hpos)
    as [r [Hh [Hlen _]]].
  rewrite Hh. cbn [Bloom.new Bloom.hasher Bloom.filter Bloom.n_hashes Bloom.size] in *.
  destruct n as [|n].
  - destruct r; [reflexivity|discriminate].
  - cbn [repeat app Bloom.all_set].
    destruct size as [|size]; [lia|]. reflexivity.
Qed.

(** X18: a filter made by [DefaultBloomFilter::new(0, n)] with
    [n > 0] panics on the first [add_key] and on the first
    [may_contain_key] (the remainder by a zero size). *)
Theorem bloom_zero_size_panics : forall n key,
  0 < n ->
  add_key (Bloom.new 0 n) key = None /\ may_contain_key (Bloom.new 0 n) key = None.
Proof.
  intros [|n] key Hn; [lia|].
  unfold Bloom.add_key, Bloom.may_contain_key, Bloom.hash_key.
  cbn [Bloom.new Bloom.hasher Bloom.size Bloom.n_hashes Bloom.hash_rounds Nat.eqb].
  split; reflexivity.
Qed.

(** X19: the Bloom filter [serialize] builds for a table ([default]
    with every key of the table added) exists (no [add_key] panics),
    answers [may_contain_key] with [true] for every key of the table,
    and is given back by [TryFrom<Vec<u8>>] from the bytes
    [From<DefaultBloomFilter> for Vec<u8>] makes of it. *)
Theorem serialize_bloom_sound : forall m,
  exists f, serialize_bloom m = Some f
    /\ (forall k v, In (k, v) m -> may_contain_key f k = Some true)
    /\ Bloom.try_from (Bloom.into_bytes f) = Some f.
Proof.
  intros m.
  assert (Hwf : Bloom.bloom_wf Bloom.default).
  { unfold Bloom.default, Bloom.new, Bloom.bloom_wf.
    cbn [Bloom.filter Bloom.hasher Bloom.size]. rewrite repeat_length.
    split; [reflexivity|]. apply Nat.ltb_lt; vm_compute; reflexivity. }
  destruct (add_keys_spec HState hasher_new hasher_write hasher_write_u8 hasher_finish
              (map fst m) Bloom.default Hwf)
    as [f [Heq [Hhs [Hwf' [_ Hkeys]]]]].
  exists f; split; [exact Heq|]. split.
  - intros k v Hin. unfold Bloom.may_contain_key.
    destruct (hash_key_in_range HState hasher_new hasher_write hasher_write_u8 hasher_finish
                (Bloom.hasher f) k) as [idxs [Hh _]]; [apply Hwf'|].
    rewrite Hh. apply all_set_true.
    rewrite Hhs in Hh. apply (Hkeys k idxs); [|exact Hh].
    apply in_map_iff; exists (k, v); split; [reflexivity|exact Hin].
  - apply bloom_bytes_roundtrip_aux; [exact Hwf'|].
    rewrite Hhs. unfold Bloom.default, Bloom.new. cbn [Bloom.hasher Bloom.n_hashes]. lia.
Qed.

End BloomExtras.

(** X20: [TryFrom<Vec<u8>>] gives back every well-formed filter whose
    [n_hashes] fits a byte from the bytes [From<DefaultBloomFilter> for
    Vec<u8>] makes of it. *)
Theorem bloom_bytes_roundtrip : forall f,
  Bloom.bloom_wf f -> Bloom.n_hashes (Bloom.hasher f) < 256 ->
  Bloom.try_from (Bloom.into_bytes f) = Some f.
Proof. exact bloom_bytes_roundtrip_aux. Qed.

(** X21: [TryFrom<Vec<u8>>] fails exactly on fewer than two bytes; a
    filter it returns is well formed, its [n_hashes] fits a byte, and
    turning it back into bytes gives the input. *)
Theorem bloom_try_from_spec : forall bytes,
  match Bloom.try_from bytes with
  | None => List.length bytes < 2
  | Some f => Bloom.bloom_wf f /\ Bloom.n_hashes (Bloom.hasher f) < 256
              /\ Bloom.into_bytes f = bytes
  end.
Proof.
  intros bytes; unfold Bloom.try_from.
  destruct (Nat.ltb_spec (List.length bytes) 2) as [H|H]; [exact H|].
  assert (E : bytes = removelast bytes ++ [last bytes x00])
    by (apply app_removelast_last; intros ->; cbn in H; lia).
  assert (L : List.length bytes = List.length (removelast bytes) + 1)
    by (rewrite E at 1; rewrite length_app; reflexivity).
  split; [split; cbn [Bloom.filter Bloom.hasher Bloom.size]; [reflexivity|lia]|].
  split.
  - cbn [Bloom.hasher Bloom.n_hashes]. pose proof (Byte.to_nat_bounded (last bytes x00)). lia.
  - unfold Bloom.into_bytes; cbn [Bloom.filter Bloom.hasher Bloom.n_hashes].
    rewrite byte_of_N_to_nat. symmetry; exact E.
Qed.

Lemma hash_key_shape_witness :
  0 < Bloom.size (Bloom.mkBloomHasher 8 3)
  /\ exists r, Bloom.hash_key N 0%N poly_write poly_write_u8 poly_finish
                 (Bloom.mkBloomHasher 8 3) "key" = Some (repeat 0 3 ++ r)
               /\ List.length r = 3 /\ Forall (fun x => x < 8) r.
Proof.
  split; [cbn; lia|].
  exact (hash_key_shape N 0%N poly_write poly_write_u8 poly_finish
           (Bloom.mkBloomHasher 8 3) "key" ltac:(cbn; lia)).
Defined.

Lemma bloom_new_may_contain_witness :
  0 < 16
  /\ Bloom.may_contain_key N 0%N poly_write poly_write_u8 poly_finish
       (Bloom.new 16 3) "key" = Some (Nat.eqb 3 0).
Proof.
  split; [lia|].
  apply (bloom_new_may_contain N 0%N poly_write poly_write_u8 poly_finish); lia.
Defined.

Lemma bloom_zero_size_panics_witness :
  0 < 2
  /\ Bloom.add_key N 0%N poly_write poly_write_u8 poly_finish (Bloom.new 0 2) "key" = None
  /\ Bloom.may_contain_key N 0%N poly_write poly_write_u8 poly_finish
       (Bloom.new 0 2) "key" = None.
Proof.
  split; [lia|].
  apply (bloom_zero_size_panics N 0%N poly_write poly_write_u8 poly_finish); lia.
Defined.

Lemma bloom_bytes_roundtrip_witness :
  Bloom.bloom_wf (Bloom.new 4 3) /\ Bloom.n_hashes (Bloom.hasher (Bloom.new 4 3)) < 256
  /\ Bloom.try_from (Bloom.into_bytes (Bloom.new 4 3)) = Some (Bloom.new 4 3).
Proof.
  assert (Hwf : Bloom.bloom_wf (Bloom.new 4 3)) by (split; cbn; [reflexivity|lia]).
  assert (Hn : Bloom.n_hashes (Bloom.hasher (Bloom.new 4 3)) < 256) by (cbn; lia).
  split; [exact Hwf|]. split; [exact Hn|].
  exact (bloom_bytes_roundtrip (Bloom.new 4 3) Hwf Hn).
Defined.


(** ** Bundle registry *)

(** X22: [flush] (file writes succeeding) pushes the new bundle to the
    front of its level and leaves the other levels as they are; the
    commit asks for a compaction exactly when L0 reaches four bundles or
    L1 reaches eight, and never for L2. *)
Theorem flush_commit_front : forall t lvl r,
  Compactor.level_bundles lvl (fst (flush t lvl r))
    = mkFileBundle (fresh r) lvl t :: Compactor.level_bundles lvl r
  /\ (forall lvl', lvl' <> lvl ->
        Compactor.level_bundles lvl' (fst (flush t lvl r)) = Compactor.level_bundles lvl' r)
  /\ (snd (flush t lvl r) = Yes <->
      (lvl = L0 /\ 4 <= S (List.length (l0 r))) \/ (lvl = L1 /\ 8 <= S (List.length (l1 r)))).
Proof.
  intros t lvl r.
  destruct lvl; unfold flush, new_file_bundle, commit_file_bundle;
    cbn [level fst snd Compactor.level_bundles l0 l1 l2 fresh List.length];
    (split; [reflexivity|]); (split; [intros [] Hne; cbn; congruence|]).
  - destruct (Nat.leb_spec 4 (S (List.length (l0 r)))) as [Hle|Hlt]; split; intros H.
    + left; split; [reflexivity|exact Hle].
    + reflexivity.
    + discriminate.
    + destruct H as [[_ H]|[H _]]; [lia|discriminate].
  - destruct (Nat.leb_spec 8 (S (List.length (l1 r)))) as [Hle|Hlt]; split; intros H.
    + right; split; [reflexivity|exact Hle].
    + reflexivity.
    + discriminate.
    + destruct H as [[H _]|[_ H]]; [discriminate|lia].
  - split; intros H; [discriminate|].
    destruct H as [[H _]|[H _]]; discriminate.
Qed.

End Extras.
